(** * Resume screener: matching pipeline and field extraction

    A shallow embedding of [src/llm_matcher.py] (prompt, fallback scorer,
    reply parser, batch matcher), of [src/resume_parser.py] (reading the
    file, contact details, skills, experience, education, the parsed resume
    and its summary) and of the upload check of [src/app.py], with the
    properties stated for them.

    Conventions of the embedding.
    - A Python [str] is a list of code points ([list N]).  Case mapping,
      [str.isalpha], [\d] and [\w] are modelled on the ASCII letters and
      digits; every other code point is carried through as an uncased
      symbol.  White space is the full set CPython uses for [str.strip],
      [str.split] and [\s].
    - A Python [float] is a binary64 number, kept by its exact rational
      value; every arithmetic operation rounds to nearest, ties to even.
    - A Python [set] of strings is a [gset]; [list(s)] is [elements s].
    - [dict.get(key, default)] on a record read from the outside is an
      optional field.
    - The language model and the libraries that read PDF and DOCX files
      are outside the program: their answers are arguments of the
      functions that call them.  A raised exception is a result of its
      own, with its message. *)

From Stdlib Require Import ZArith QArith Qpower Qreduction Lia List String Ascii.
From Stdlib Require Import Sorted Permutation SpecFloat.
From stdpp Require Import gmap list sorting.

Local Open Scope Z_scope.

(** ** Binary64 arithmetic *)

Module Float.

Local Open Scope Q_scope.

(** Round to the nearest integer, ties to the even one. *)
Definition rhe (q : Q) : Z :=
  let n := Qnum q in
  let d := Zpos (Qden q) in
  let f := (n / d)%Z in
  match (2 * (n mod d) ?= d)%Z with
  | Lt => f
  | Gt => (f + 1)%Z
  | Eq => if Z.even f then f else (f + 1)%Z
  end.

(** [floor (log2 q)] for [0 < q]. *)
Definition flog2 (q : Q) : Z :=
  let k := (Z.log2 (Qnum q) - Z.log2 (Zpos (Qden q)))%Z in
  if Qle_bool (2 ^ k) q then k else (k - 1)%Z.

(** Exponent of the least significant bit of the smallest subnormal. *)
Definition emin : Z := (-1074)%Z.

(** Nearest binary64 number to a positive rational: 53 significant bits,
    exponent bounded below (subnormals), unbounded above. *)
Definition RNpos (q : Q) : Q :=
  let e := Z.max (flog2 q - 52) emin in
  Qred (inject_Z (rhe (q / 2 ^ e)) * 2 ^ e).

Definition RN (q : Q) : Q :=
  match Qnum q with
  | Z0 => 0
  | Zpos _ => RNpos q
  | Zneg _ => - RNpos (- q)
  end.

(** A float is a finite binary64 value or +inf; NaN and -inf never arise
    in this program. *)
Inductive float : Type :=
  | Fin (q : Q)
  | Inf.

(** Rounding with overflow to infinity. *)
Definition to_double (q : Q) : float :=
  let r := RN q in
  if Qle_bool (2 ^ 1024) r then Inf else Fin r.

Definition fleb (x y : float) : bool :=
  match x, y with
  | Fin a, Fin b => Qle_bool a b
  | _, Inf => true
  | Inf, Fin _ => false
  end.

Definition fltb (x y : float) : bool := negb (fleb y x).

Definition fle (x y : float) : Prop := fleb x y = true.

(** Numeric equality. *)
Definition feqb (x y : float) : bool := fleb x y && fleb y x.

(** [max(a, b)] and [min(a, b)] of Python: the first argument is kept
    unless the second is strictly better. *)
Definition py_max (a b : float) : float := if fltb a b then b else a.
Definition py_min (a b : float) : float := if fltb b a then b else a.

(** Finite arithmetic: [int / int], [float * float], [float + float]. *)
Definition int_truediv (m n : Z) : Q := RN (inject_Z m / inject_Z n).
Definition fmul (a b : Q) : Q := RN (a * b).
Definition fadd (a b : Q) : Q := RN (a + b).

(** [round(x, 1)]: the decimal with one fractional digit nearest to the
    exact value of [x] (ties to even), read back as a binary64 number. *)
Definition round1 (x : Q) : Q := RN (inject_Z (rhe (x * 10)) / 10).

(** *** Comparison with the Standard Library's binary64

    [SpecFloat] specifies the IEEE 754 operations bit by bit.  The score
    formula computed with its operations serves as a check of [RN]. *)

Definition b64 (m e : Z) : spec_float := binary_normalize 53 1024 m e false.

Definition SF2Q (x : spec_float) : option Q :=
  match x with
  | S754_zero _ => Some 0
  | S754_finite s m e =>
      Some ((if s then -1 else 1) * inject_Z (Zpos m) * 2 ^ e)
  | _ => None
  end.

(** [1 + (m / n) * 9] with [SpecFloat]'s division, product and sum. *)
Definition sf_pre_score (m n : Z) : spec_float :=
  SFadd 53 1024 (b64 1 0)
    (SFmul 53 1024 (SFdiv 53 1024 (b64 m 0) (b64 n 0)) (b64 9 0)).

Definition agrees_with_binary64 (m n : Z) : bool :=
  match SF2Q (sf_pre_score m n) with
  | Some q => Qeq_bool q (fadd 1 (fmul (int_truediv m n) 9))
  | None => false
  end.

End Float.

(** ** Python strings *)

Abbreviation char := N (only parsing).
Abbreviation str := (list N) (only parsing).

Module PyStr.

Local Open Scope N_scope.

(** A string literal of the source, as code points. *)
Definition lit (s : string) : str := map N_of_ascii (list_ascii_of_string s).

Definition is_upper (c : char) : bool := (65 <=? c) && (c <=? 90).
Definition is_lower (c : char) : bool := (97 <=? c) && (c <=? 122).
Definition is_digit (c : char) : bool := (48 <=? c) && (c <=? 57).
Definition is_cased (c : char) : bool := is_upper c || is_lower c.

(** [\w]: letters, digits and the underscore. *)
Definition is_word (c : char) : bool := is_cased c || is_digit c || (c =? 95).

(** White space of [str.strip], [str.isspace] and [\s]. *)
Definition is_space (c : char) : bool :=
  ((9 <=? c) && (c <=? 13)) || ((28 <=? c) && (c <=? 32))
  || (c =? 133) || (c =? 160) || (c =? 5760)
  || ((8192 <=? c) && (c <=? 8202))
  || (c =? 8232) || (c =? 8233) || (c =? 8239) || (c =? 8287) || (c =? 12288).

Definition lower_char (c : char) : char := if is_upper c then c + 32 else c.
Definition upper_char (c : char) : char := if is_lower c then c - 32 else c.

(** [s.lower()] *)
Definition lower (s : str) : str := map lower_char s.

(** [s.title()]: a cased character is upper-cased when it starts a run of
    cased characters and lower-cased inside one. *)
Fixpoint title_from (prev_cased : bool) (s : str) : str :=
  match s with
  | [] => []
  | c :: t =>
      (if prev_cased then lower_char c else upper_char c)
        :: title_from (is_cased c) t
  end.

Definition title (s : str) : str := title_from false s.

(** [s.strip()] *)
Fixpoint lstrip (s : str) : str :=
  match s with
  | [] => []
  | c :: t => if is_space c then lstrip t else s
  end.

Definition rstrip (s : str) : str := rev (lstrip (rev s)).
Definition strip (s : str) : str := rstrip (lstrip s).

(** [s.split(sep)] for a one-character separator: never empty, [''] for
    the empty string. *)
Fixpoint split (sep : char) (s : str) : list str :=
  match s with
  | [] => [[]]
  | c :: t =>
      if c =? sep then [] :: split sep t
      else match split sep t with
           | h :: r => (c :: h) :: r
           | [] => [[c]]
           end
  end.

(** [str(n)] for a natural number. *)
Fixpoint digits_of_uint (u : Decimal.uint) : str :=
  match u with
  | Decimal.Nil => []
  | Decimal.D0 v => 48 :: digits_of_uint v
  | Decimal.D1 v => 49 :: digits_of_uint v
  | Decimal.D2 v => 50 :: digits_of_uint v
  | Decimal.D3 v => 51 :: digits_of_uint v
  | Decimal.D4 v => 52 :: digits_of_uint v
  | Decimal.D5 v => 53 :: digits_of_uint v
  | Decimal.D6 v => 54 :: digits_of_uint v
  | Decimal.D7 v => 55 :: digits_of_uint v
  | Decimal.D8 v => 56 :: digits_of_uint v
  | Decimal.D9 v => 57 :: digits_of_uint v
  end.

Definition str_of_N (n : N) : str := digits_of_uint (N.to_uint n).
Definition str_of_nat (n : nat) : str := str_of_N (N.of_nat n).

(** [int(s)] on a run of decimal digits (leading zeros allowed). *)
Definition int_of_digits (s : str) : N :=
  fold_left (fun acc c => acc * 10 + (c - 48)) s 0.

(** Order of [str] comparison: lexicographic on code points. *)
Fixpoint str_leb (a b : str) : bool :=
  match a, b with
  | [], _ => true
  | _ :: _, [] => false
  | x :: a', y :: b' =>
      if x <? y then true else if y <? x then false else str_leb a' b'
  end.

Definition str_eqb (a b : str) : bool := bool_decide (a = b).

(** [sep.join(l)] *)
Fixpoint join (sep : str) (l : list str) : str :=
  match l with
  | [] => []
  | [x] => x
  | x :: t => x ++ sep ++ join sep t
  end.

(** [c in s] *)
Definition contains (c : char) (s : str) : bool := existsb (N.eqb c) s.

(** [s.endswith(suffix)] *)
Definition endswith (s suffix : str) : bool :=
  str_eqb (drop (length s - length suffix) s) suffix.

(** [s.replace(c, '')] for a one-character [c] *)
Definition remove_char (c : char) (s : str) : str :=
  List.filter (fun x => negb (x =? c)) s.

(** [s.isalpha()]: not empty, letters only. *)
Definition isalpha (s : str) : bool :=
  negb (Nat.eqb (length s) 0) && forallb is_cased s.

(** [s.split()]: the runs of characters between white space; [cur] is the
    run being read, reversed. *)
Fixpoint split_ws_from (cur : str) (s : str) : list str :=
  match s with
  | [] => match cur with [] => [] | _ :: _ => [rev cur] end
  | c :: t =>
      if is_space c then
        match cur with
        | [] => split_ws_from [] t
        | _ :: _ => rev cur :: split_ws_from [] t
        end
      else split_ws_from (c :: cur) t
  end.

Definition split_ws (s : str) : list str := split_ws_from [] s.

(** [s.rsplit(sep, 1)]: cut at the last separator, if there is one. *)
Fixpoint rsplit_once (sep : char) (s : str) : list str :=
  match s with
  | [] => [[]]
  | c :: t =>
      match rsplit_once sep t with
      | [a; b] => [c :: a; b]
      | _ => if c =? sep then [[]; t] else [s]
      end
  end.

End PyStr.

(** ** Conversions between floats and text *)

Module FloatText.

Import Float PyStr.
Local Open Scope Q_scope.

(** Value of a decimal literal [digits], [digits.digits], [digits.] or
    [.digits]; [None] for any other text.  [float()] is only applied to what
    the MATCH SCORE pattern captures, which has one of the first two
    forms. *)
Definition decimal_value (s : str) : option Q :=
  match split 46%N s with
  | [i] =>
      if forallb is_digit i && negb (Nat.eqb (length i) 0)
      then Some (inject_Z (Z.of_N (int_of_digits i)))
      else None
  | [i; f] =>
      if forallb is_digit i && forallb is_digit f
         && negb (Nat.eqb (length (i ++ f)) 0)
      then Some (inject_Z (Z.of_N (int_of_digits (i ++ f)))
                 / inject_Z (10 ^ Z.of_nat (length f)))
      else None
  | _ => None
  end.

(** [float(s)] *)
Definition py_float (s : str) : option float :=
  option_map to_double (decimal_value s).

(** Number of fractional digits of the shortest decimal that reads back
    as [q], searched from [d] upwards over [fuel] candidates. *)
Fixpoint shortest_decimals (q : Q) (d : nat) (fuel : nat) : nat :=
  match fuel with
  | O => d
  | S fuel' =>
      let p := inject_Z (10 ^ Z.of_nat d) in
      if Qeq_bool (RN (inject_Z (rhe (q * p)) / p)) q then d
      else shortest_decimals q (S d) fuel'
  end.

(** Left padding with zeros up to [width]. *)
Definition zero_pad (width : nat) (s : str) : str :=
  repeat 48%N (width - length s) ++ s.

(** [repr(x)], as an f-string prints a float, in positional notation
    (CPython switches to an exponent below 1e-4 and from 1e16 on; the
    scores printed here lie between 1 and 10). *)
Definition repr_float (x : float) : str :=
  match x with
  | Inf => lit "inf"
  | Fin q =>
      let d := shortest_decimals q 1 16 in
      let p := (10 ^ Z.of_nat d)%Z in
      let t := rhe (q * inject_Z p) in
      str_of_N (Z.to_N (t / p)) ++ [46%N]
        ++ zero_pad d (str_of_N (Z.to_N (t mod p)))
  end.

End FloatText.

(** ** Regular expressions

    The fragment of Python's [re] the two source files use, with the
    backtracking order of the real engine: alternatives left to right,
    greedy repetition longest first, lazy repetition shortest first.
    Repetition is over one-character classes, as in every pattern of the
    source. *)

Module Re.

Import PyStr.
Local Open Scope N_scope.

Inductive regex : Type :=
  | Eps                                  (* the empty pattern *)
  | Chr (p : char -> bool)               (* one character of a class *)
  | Seq (a b : regex)                    (* ab *)
  | Alt (a b : regex)                    (* a|b *)
  | Opt (a : regex)                      (* (?:a)? *)
  | Star (p : char -> bool)              (* c* *)
  | LazyStar (p : char -> bool)          (* c*? *)
  | Group (n : nat) (a : regex)          (* n-th capturing group *)
  | Eos                                  (* $ *)
  | WordB.                               (* \b *)

Declare Scope re_scope.
Delimit Scope re_scope with re.
Bind Scope re_scope with regex.
Infix "+>" := Seq (at level 62, right associativity) : re_scope.
Infix "<|>" := Alt (at level 63, right associativity) : re_scope.

(** c+ and c+? *)
Definition Plus (p : char -> bool) : regex := Seq (Chr p) (Star p).
Definition LazyPlus (p : char -> bool) : regex := Seq (Chr p) (LazyStar p).

(** Character classes. *)
Definition is_char (c : char) : char -> bool := fun x => x =? c.
Definition is_char_i (c : char) : char -> bool :=
  fun x => lower_char x =? lower_char c.
Definition dot : char -> bool := fun x => negb (x =? 10).   (* . *)
Definition any : char -> bool := fun _ => true.              (* . with DOTALL *)

(** A literal word, case-sensitive and under IGNORECASE. *)
Definition word (s : str) : regex := fold_right (fun c r => Seq (Chr (is_char c)) r) Eps s.
Definition word_i (s : str) : regex := fold_right (fun c r => Seq (Chr (is_char_i c)) r) Eps s.

(** State of a match attempt: the character before the cursor, the text
    from the cursor on, and the groups captured so far (latest first). *)
Record mstate : Type := MState {
  prev : option char;
  rest : str;
  caps : list (nat * str)
}.

Definition is_word_opt (o : option char) : bool :=
  match o with Some c => is_word c | None => false end.

(** [\b]: exactly one side of the cursor is a word character. *)
Definition at_boundary (st : mstate) : bool :=
  xorb (is_word_opt (prev st)) (is_word_opt (head (rest st))).

(** [$] without MULTILINE: the end, or just before a final newline. *)
Definition at_end (st : mstate) : bool :=
  match rest st with
  | [] => true
  | [c] => c =? 10
  | _ => false
  end.

Fixpoint star_greedy {A} (p : char -> bool) (k : mstate -> option A)
    (pv : option char) (s : str) (cs : list (nat * str)) : option A :=
  match s with
  | c :: t =>
      if p c then
        match star_greedy p k (Some c) t cs with
        | Some r => Some r
        | None => k (MState pv s cs)
        end
      else k (MState pv s cs)
  | [] => k (MState pv [] cs)
  end.

Fixpoint star_lazy {A} (p : char -> bool) (k : mstate -> option A)
    (pv : option char) (s : str) (cs : list (nat * str)) : option A :=
  match k (MState pv s cs) with
  | Some r => Some r
  | None =>
      match s with
      | c :: t => if p c then star_lazy p k (Some c) t cs else None
      | [] => None
      end
  end.

(** Text consumed between two states of one attempt. *)
Definition consumed (st st' : mstate) : str :=
  take (length (rest st) - length (rest st'))%nat (rest st).

(** Backtracking matcher in continuation-passing style: [k] is what must
    still match after [r]. *)
Fixpoint rmatch {A} (r : regex) (k : mstate -> option A) (st : mstate)
    : option A :=
  match r with
  | Eps => k st
  | Chr p =>
      match rest st with
      | c :: t => if p c then k (MState (Some c) t (caps st)) else None
      | [] => None
      end
  | Seq a b => rmatch a (rmatch b k) st
  | Alt a b =>
      match rmatch a k st with
      | Some x => Some x
      | None => rmatch b k st
      end
  | Opt a =>
      match rmatch a k st with
      | Some x => Some x
      | None => k st
      end
  | Star p => star_greedy p k (prev st) (rest st) (caps st)
  | LazyStar p => star_lazy p k (prev st) (rest st) (caps st)
  | Group n a =>
      rmatch a
        (fun st' =>
           k (MState (prev st') (rest st') ((n, consumed st st') :: caps st')))
        st
  | Eos => if at_end st then k st else None
  | WordB => if at_boundary st then k st else None
  end.

(** One attempt at the cursor [(pv, s)]; the result is the state at the
    end of the match. *)
Definition match_at (r : regex) (pv : option char) (s : str) : option mstate :=
  rmatch r Some (MState pv s []).

(** [m.group(n)]; the empty string for a group that took no part in the
    match, as [findall] reports it. *)
Definition group (n : nat) (m : mstate) : str :=
  match find (fun c => Nat.eqb (fst c) n) (caps m) with
  | Some c => snd c
  | None => []
  end.

(** [re.search]: the first cursor position, left to right, with a match. *)
Fixpoint search_from (r : regex) (pv : option char) (s : str) : option mstate :=
  match match_at r pv s with
  | Some m => Some m
  | None =>
      match s with
      | [] => None
      | c :: t => search_from r (Some c) t
      end
  end.

Definition search (r : regex) (s : str) : option mstate := search_from r None s.

(** [re.findall]: successive non-overlapping matches.  [skip] counts the
    characters of the last match still to step over.  (For a pattern that
    matches the empty string the real engine has further rules; no pattern
    scanned this way in the source does.) *)
Fixpoint findall_from (r : regex) (pv : option char) (s : str) (skip : nat)
    : list mstate :=
  match skip with
  | S n =>
      match s with
      | c :: t => findall_from r (Some c) t n
      | [] => []
      end
  | O =>
      match match_at r pv s with
      | Some m =>
          m :: match s with
               | c :: t =>
                   findall_from r (Some c) t (length s - length (rest m) - 1)%nat
               | [] => []
               end
      | None =>
          match s with
          | c :: t => findall_from r (Some c) t 0
          | [] => []
          end
      end
  end.

Definition findall (r : regex) (s : str) : list mstate := findall_from r None s 0.

(** [re.split] for a pattern without groups: the pieces between successive
    matches; [cur] is the piece being read, reversed. *)
Fixpoint split_from (r : regex) (pv : option char) (s : str) (skip : nat)
    (cur : str) : list str :=
  match s with
  | [] => [rev cur]
  | c :: t =>
      match skip with
      | S n => split_from r (Some c) t n cur
      | O =>
          match match_at r pv s with
          | Some m =>
              match (length s - length (rest m))%nat with
              | S n => rev cur :: split_from r (Some c) t n []
              | O => split_from r (Some c) t 0 (c :: cur)
              end
          | None => split_from r (Some c) t 0 (c :: cur)
          end
      end
  end.

Definition split (r : regex) (s : str) : list str := split_from r None s 0 [].

(** *** What a match is

    The matcher above is a program; the relation below says what it
    computes.  [matches r st st'] holds when [r] can match from the state
    [st] and leave the state [st']. *)

Inductive matches : regex -> mstate -> mstate -> Prop :=
  | M_Eps st : matches Eps st st
  | M_Chr p pv c t cs :
      p c = true -> matches (Chr p) (MState pv (c :: t) cs) (MState (Some c) t cs)
  | M_Seq a b st1 st2 st3 :
      matches a st1 st2 -> matches b st2 st3 -> matches (a +> b) st1 st3
  | M_AltL a b st st' : matches a st st' -> matches (a <|> b) st st'
  | M_AltR a b st st' : matches b st st' -> matches (a <|> b) st st'
  | M_OptSome a st st' : matches a st st' -> matches (Opt a) st st'
  | M_OptNone a st : matches (Opt a) st st
  | M_StarNil p st : matches (Star p) st st
  | M_StarCons p pv c t cs st' :
      p c = true -> matches (Star p) (MState (Some c) t cs) st' ->
      matches (Star p) (MState pv (c :: t) cs) st'
  | M_LazyNil p st : matches (LazyStar p) st st
  | M_LazyCons p pv c t cs st' :
      p c = true -> matches (LazyStar p) (MState (Some c) t cs) st' ->
      matches (LazyStar p) (MState pv (c :: t) cs) st'
  | M_Group n a st st' :
      matches a st st' ->
      matches (Group n a) st
        (MState (prev st') (rest st') ((n, consumed st st') :: caps st'))
  | M_Eos st : at_end st = true -> matches Eos st st
  | M_WordB st : at_boundary st = true -> matches WordB st st.

(** The character before the cursor once [u] has been read. *)
Definition after (pv : option char) (u : str) : option char :=
  match last u with Some c => Some c | None => pv end.

(** Every character the pattern can read belongs to the class [q]. *)
Fixpoint reads_only (q : char -> bool) (r : regex) : Prop :=
  match r with
  | Chr p | Star p | LazyStar p => forall c, p c = true -> q c = true
  | Seq a b | Alt a b => reads_only q a /\ reads_only q b
  | Opt a | Group _ a => reads_only q a
  | Eps | Eos | WordB => True
  end.




End Re.

(** ** Sorting

    [sorted] and [list.sort] are stable; a stable sort has only one
    possible result, modelled here by insertion from the right.  They use
    the strict comparison [<] of the keys only. *)

Module PySort.

Section Sort.
Context {A : Type} (ltb : A -> A -> bool).

(** Put [x] in front of the first element that is not smaller. *)
Fixpoint insert (x : A) (l : list A) : list A :=
  match l with
  | [] => [x]
  | y :: t => if ltb y x then y :: insert x t else x :: y :: t
  end.

(** [sorted(l)] *)
Fixpoint sorted (l : list A) : list A :=
  match l with
  | [] => []
  | x :: t => insert x (sorted t)
  end.

(** [l.sort(reverse=True)]: CPython reverses the list, sorts it and
    reverses it again, which keeps equal elements in their input order. *)
Definition sorted_reverse (l : list A) : list A := rev (sorted (rev l)).

(** In an ascending list no later element is smaller, in a descending one
    no later element is greater. *)
Definition ascending (x y : A) : Prop := ltb y x = false.
Definition descending (x y : A) : Prop := ltb x y = false.
End Sort.

End PySort.

(** ** [src/llm_matcher.py] *)

Module LLMMatcher.

Import Float PyStr FloatText Re.
Local Open Scope re_scope.

(** The resume dictionary, as far as the matcher reads it. *)
Record resume_data : Type := ResumeData {
  resume_id : option Z;                       (* 'id' *)
  resume_candidate_name : option str;         (* 'candidate_name' *)
  resume_email : option str;                  (* 'email' *)
  resume_skills : option (list str);          (* 'skills' *)
  resume_experience_years : option str        (* 'experience_years' *)
}.

(** [required_skills] arrives as a list or as one delimited string. *)
Inductive skills_input : Type :=
  | SkillList (l : list str)
  | SkillText (s : str).

(** The job dictionary. *)
Record job_data : Type := JobData {
  job_title : option str;
  required_skills : option skills_input;
  job_description : option str;
  experience_required : option str
}.

(** The dictionary a match returns. *)
Record match_result : Type := MatchResult {
  match_score : float;
  justification : str;
  matched_skills : list str;
  missing_skills : list str;
  overall_assessment : str;
  recommendation : str
}.

(** A match result with the identity fields [batch_match_resumes] adds. *)
Record ranked_result : Type := RankedResult {
  ranked_match : match_result;
  ranked_resume_id : option Z;
  ranked_candidate_name : str;
  ranked_email : option str
}.

(** *** Patterns of [_parse_llm_response] *)

(** [(\d+(?:\.\d+)?)] *)
Definition number_re : regex :=
  Group 1 (Plus is_digit +> Opt (Chr (is_char 46) +> Plus is_digit)).

(** [MATCH SCORE:?\s*(\d+(?:\.\d+)?)], IGNORECASE *)
Definition score_re : regex :=
  word_i (lit "MATCH SCORE") +> Opt (Chr (is_char 58)) +> Star is_space
  +> number_re.

(** [MATCHED SKILLS:?(.*?)(?:MISSING SKILLS:|JUSTIFICATION:|$)],
    IGNORECASE, DOTALL *)
Definition matched_re : regex :=
  word_i (lit "MATCHED SKILLS") +> Opt (Chr (is_char 58))
  +> Group 1 (LazyStar any)
  +> (word_i (lit "MISSING SKILLS:") <|> word_i (lit "JUSTIFICATION:") <|> Eos).

(** [MISSING SKILLS:?(.*?)(?:JUSTIFICATION:|RECOMMENDATION:|$)],
    IGNORECASE, DOTALL *)
Definition missing_re : regex :=
  word_i (lit "MISSING SKILLS") +> Opt (Chr (is_char 58))
  +> Group 1 (LazyStar any)
  +> (word_i (lit "JUSTIFICATION:") <|> word_i (lit "RECOMMENDATION:") <|> Eos).

(** [JUSTIFICATION:?(.*?)(?:RECOMMENDATION:|$)], IGNORECASE, DOTALL *)
Definition justification_re : regex :=
  word_i (lit "JUSTIFICATION") +> Opt (Chr (is_char 58))
  +> Group 1 (LazyStar any)
  +> (word_i (lit "RECOMMENDATION:") <|> Eos).

(** [RECOMMENDATION:?\s*(.+?)(?:\n|$)], IGNORECASE *)
Definition recommendation_re : regex :=
  word_i (lit "RECOMMENDATION") +> Opt (Chr (is_char 58)) +> Star is_space
  +> Group 1 (LazyPlus dot) +> (Chr (is_char 10) <|> Eos).

(** [[-•]\s*(.+?)(?:\n|$)]; the bullet is U+2022. *)
Definition bullet_re : regex :=
  Chr (fun c => (c =? 45)%N || (c =? 8226)%N) +> Star is_space
  +> Group 1 (LazyPlus dot) +> (Chr (is_char 10) <|> Eos).

Definition nonempty (s : str) : bool := negb (Nat.eqb (length s) 0).

(** The items of a skills section: bullet lines, or else the
    comma-separated pieces; trimmed, empty ones dropped, at most ten. *)
Definition section_items (text : str) : list str :=
  let bullets := map (group 1) (findall bullet_re text) in
  let items :=
    match bullets with
    | [] => map strip (filter (fun s => nonempty (strip s)) (PyStr.split 44 text))
    | _ => bullets
    end in
  take 10 (map strip (filter (fun item => nonempty (strip item)) items)).

(** [_parse_llm_response]; the resume and the job are not consulted. *)
Definition parse_llm_response (llm_response : str)
    (resume : resume_data) (job : job_data) : match_result :=
  let score :=
    match search score_re llm_response with
    | Some score_match =>
        match py_float (group 1 score_match) with
        | Some score => py_min (Fin 10) (py_max (Fin 1) score)
        | None => Fin 5
        end
    | None => Fin 5
    end in
  let matched :=
    match search matched_re llm_response with
    | Some matched_section => section_items (group 1 matched_section)
    | None => []
    end in
  let missing :=
    match search missing_re llm_response with
    | Some missing_section => section_items (group 1 missing_section)
    | None => []
    end in
  let justif :=
    match search justification_re llm_response with
    | Some justification_section => strip (group 1 justification_section)
    | None => []
    end in
  let recomm :=
    match search recommendation_re llm_response with
    | Some recommendation_section => strip (group 1 recommendation_section)
    | None => lit "Consider"
    end in
  {| match_score := score;
     justification := justif;
     matched_skills := matched;
     missing_skills := missing;
     overall_assessment :=
       lit "Match Score: " ++ repr_float score ++ lit "/10 - " ++ recomm;
     recommendation := recomm |}.

(** *** The fallback scorer *)

(** The set of candidate skills, lower-cased. *)
Definition candidate_set (resume : resume_data) : gset (list N) :=
  list_to_set (map lower (default [] (resume_skills resume))).

(** The set of required skills, from either format. *)
Definition required_set (job : job_data) : gset (list N) :=
  match default (SkillList []) (required_skills job) with
  | SkillText s => list_to_set (map (fun x => lower (strip x)) (PyStr.split 44 s))
  | SkillList l => list_to_set (map lower l)
  end.

(** [round(1 + (match_percentage * 9), 1)] with
    [match_percentage = m / n] *)
Definition score_of (m n : Z) : Q := round1 (fadd 1 (fmul (int_truediv m n) 9)).

(** The score from the two set sizes. *)
Definition fallback_score (n_matched n_required : nat) : Q :=
  if Nat.ltb 0 n_required then score_of (Z.of_nat n_matched) (Z.of_nat n_required)
  else 5%Q.

(** [_fallback_matching] *)
Definition fallback_matching (resume : resume_data) (job : job_data)
    : match_result :=
  let candidate_skills := candidate_set resume in
  let required := required_set job in
  let matched := candidate_skills ∩ required in
  let missing := required ∖ candidate_skills in
  let score := fallback_score (size matched) (size required) in
  let justif :=
    if Qle_bool 7 score then
      lit "Strong candidate with " ++ str_of_nat (size matched)
        ++ lit " out of " ++ str_of_nat (size required)
        ++ lit " required skills."
    else if Qle_bool 4 score then
      lit "Moderate fit with " ++ str_of_nat (size matched)
        ++ lit " matching skills, but missing " ++ str_of_nat (size missing)
        ++ lit " key requirements."
    else
      lit "Limited fit with only " ++ str_of_nat (size matched)
        ++ lit " matching skills out of " ++ str_of_nat (size required)
        ++ lit " required." in
  {| match_score := Fin score;
     justification := justif;
     matched_skills := elements matched;
     missing_skills := elements missing;
     overall_assessment :=
       lit "Automated Score: " ++ repr_float (Fin score) ++ lit "/10";
     recommendation :=
       if Qle_bool 8 score then lit "Strong Hire"
       else if Qle_bool 5 score then lit "Consider"
       else lit "Pass" |}.

(** *** Matching one resume, matching a batch *)

(** The language model is outside the program: [llm resume job] stands
    for [generate_llm_response (_build_matching_prompt resume job)], the
    reply text or [None] on any failure. *)
Definition match_resume_to_job (llm : resume_data -> job_data -> option str)
    (resume : resume_data) (job : job_data) : match_result :=
  match llm resume job with
  | None => fallback_matching resume job
  | Some [] => fallback_matching resume job
  | Some llm_response => parse_llm_response llm_response resume job
  end.

Definition annotate (resume : resume_data) (m : match_result) : ranked_result :=
  {| ranked_match := m;
     ranked_resume_id := resume_id resume;
     ranked_candidate_name := default (lit "Unknown") (resume_candidate_name resume);
     ranked_email := resume_email resume |}.

(** The loop of [batch_match_resumes]; the model may answer differently at
    each call, so the oracle takes the number of the call. *)
Fixpoint match_all (llm : nat -> resume_data -> job_data -> option str)
    (i : nat) (resumes : list resume_data) (job : job_data) : list ranked_result :=
  match resumes with
  | [] => []
  | resume :: more =>
      annotate resume (match_resume_to_job (llm i) resume job)
        :: match_all llm (S i) more job
  end.

Definition score_key (x : ranked_result) : float := match_score (ranked_match x).
Definition key_ltb (x y : ranked_result) : bool := fltb (score_key x) (score_key y).

(** [batch_match_resumes] *)
Definition batch_match_resumes (llm : nat -> resume_data -> job_data -> option str)
    (resumes : list resume_data) (job : job_data) : list ranked_result :=
  PySort.sorted_reverse key_ltb (match_all llm 0 resumes job).

(** *** The prompt *)

Definition nl : str := [10%N].
Definition quoted (s : str) : str := [34%N] ++ s ++ [34%N].

(** [_build_matching_prompt] *)
Definition build_matching_prompt (resume : resume_data) (job : job_data) : str :=
  let candidate_name := default (lit "Unknown") (resume_candidate_name resume) in
  let candidate_skills := default [] (resume_skills resume) in
  let candidate_exp := default (lit "Not specified") (resume_experience_years resume) in
  let title := default (lit "Position") (job_title job) in
  let required := default (SkillList []) (required_skills job) in
  let description := default [] (job_description job) in
  let experience := default (lit "Not specified") (experience_required job) in
  join nl
    [ lit "Compare the following resume with the job description and provide a detailed match analysis.";
      [];
      lit "JOB DETAILS:";
      lit "Job Title: " ++ title;
      lit "Required Skills: "
        ++ match required with
           | SkillList l => join (lit ", ") l
           | SkillText s => s
           end;
      lit "Experience Required: " ++ experience;
      lit "Job Description: " ++ take 500 description;
      [];
      lit "CANDIDATE DETAILS:";
      lit "Name: " ++ candidate_name;
      lit "Skills: "
        ++ match candidate_skills with
           | [] => lit "None specified"
           | _ :: _ => join (lit ", ") (take 20 candidate_skills)
           end;
      lit "Experience: " ++ candidate_exp;
      [];
      lit "TASK:";
      lit "Rate the fit between this candidate and the job on a scale of 1-10, where:";
      lit "- 1-3: Poor fit (major gaps in requirements)";
      lit "- 4-6: Moderate fit (some relevant skills but significant gaps)";
      lit "- 7-8: Good fit (most requirements met)";
      lit "- 9-10: Excellent fit (all or nearly all requirements met with strong alignment)";
      [];
      lit "Provide your response in the following format:";
      [];
      lit "MATCH SCORE: [score from 1-10]";
      [];
      lit "MATCHED SKILLS:";
      lit "- [list skills that match between candidate and job requirements]";
      [];
      lit "MISSING SKILLS:";
      lit "- [list required skills that candidate doesn't have]";
      [];
      lit "JUSTIFICATION:";
      lit "[Provide 2-3 sentences explaining the score, highlighting strengths and gaps]";
      [];
      lit "RECOMMENDATION:";
      lit "[Provide a hiring recommendation: " ++ quoted (lit "Strong Hire") ++ lit ", "
        ++ quoted (lit "Consider") ++ lit ", " ++ quoted (lit "Maybe") ++ lit ", or "
        ++ quoted (lit "Pass") ++ lit "]";
      [] ].

(** [match_resume_to_job] with the model called on the prompt:
    [generate prompt] stands for [generate_llm_response], the reply text
    or [None] on any failure. *)
Definition match_with_prompt (generate : str -> option str)
    (resume : resume_data) (job : job_data) : match_result :=
  match_resume_to_job (fun r j => generate (build_matching_prompt r j)) resume job.

(** *** Notions used to state the properties *)


(** [min(10.0, max(1.0, score))] *)
Definition clamp_score (x : float) : float := py_min (Fin 10) (py_max (Fin 1) x).



(** Occurrence of a heading in a text, letter case ignored. *)
Definition occurs_i (h s : str) : Prop :=
  exists pre u post, s = pre ++ u ++ post /\ lower u = lower h.



(** The text [s] begins with a RECOMMENDATION heading, an optional colon
    and white space, followed by [line], which runs to the end of its
    line. *)
Definition recommendation_place (s line : str) : Prop :=
  exists h sep ws post,
    s = h ++ sep ++ ws ++ line ++ post
    /\ lower h = lower (lit "RECOMMENDATION")
    /\ (sep = [] \/ sep = [58%N])
    /\ forallb is_space ws = true
    /\ line <> [] /\ forallb dot line = true
    /\ (post = [] \/ exists post', post = 10%N :: post').

(** The first numeric token found after the MATCH SCORE heading, read as
    the words say: find the heading, then the first digit after it, and
    take the numeric token that starts there. *)
Fixpoint strip_prefix_i (h s : str) : option str :=
  match h, s with
  | [], _ => Some s
  | c :: h', d :: s' =>
      if (lower_char c =? lower_char d)%N then strip_prefix_i h' s' else None
  | _ :: _, [] => None
  end.

Fixpoint after_heading (h s : str) : option str :=
  match strip_prefix_i h s with
  | Some t => Some t
  | None =>
      match s with
      | [] => None
      | _ :: s' => after_heading h s'
      end
  end.




(** *** A reply in the format the prompt asks for *)






(** *** Sample data *)

Definition no_resume : resume_data := ResumeData None None None None None.
Definition no_job : job_data := JobData None None None None.

(** The scenario of the matcher's own test block. *)
Definition john_doe : resume_data :=
  {| resume_id := Some 1%Z;
     resume_candidate_name := Some (lit "John Doe");
     resume_email := None;
     resume_skills := Some [lit "Python"; lit "Flask"; lit "SQL"; lit "Docker"];
     resume_experience_years := Some (lit "3 years") |}.

Definition backend_job : job_data :=
  {| job_title := Some (lit "Backend Developer");
     required_skills :=
       Some (SkillList [lit "Python"; lit "Flask"; lit "PostgreSQL";
                        lit "Docker"; lit "AWS"]);
     job_description :=
       Some (lit "Looking for a backend developer with Python and Flask experience.");
     experience_required := Some (lit "2-4 years") |}.


(** A model that answers the [i]-th call with a bare score line. *)
Definition scripted_llm (i : nat) (_ : resume_data) (_ : job_data) : option str :=
  match i with
  | 0 => Some (lit "MATCH SCORE: 6.4")
  | 1 => Some (lit "MATCH SCORE: 8.0")
  | 2 => Some (lit "MATCH SCORE: 3.0")
  | _ => None
  end%nat.

End LLMMatcher.

(** ** [src/resume_parser.py] *)

Module ResumeParser.

Import PyStr Re.
Local Open Scope re_scope.
Local Open Scope string_scope.

(** [self.common_skills] *)
Definition common_skills : list str := map lit
  [ (* Programming Languages *)
    "python"; "java"; "javascript"; "c++"; "c#"; "php"; "ruby"; "swift"; "kotlin";
    "go"; "rust"; "typescript"; "scala"; "r"; "matlab"; "perl";
    (* Web Technologies *)
    "html"; "css"; "react"; "angular"; "vue"; "node.js"; "express"; "django";
    "flask"; "spring boot"; "asp.net"; "jquery"; "bootstrap"; "tailwind";
    (* Databases *)
    "sql"; "mysql"; "postgresql"; "mongodb"; "redis"; "oracle"; "sqlite";
    "cassandra"; "dynamodb"; "firebase";
    (* Cloud & DevOps *)
    "aws"; "azure"; "gcp"; "docker"; "kubernetes"; "jenkins"; "git"; "github";
    "gitlab"; "ci/cd"; "terraform"; "ansible";
    (* Data Science & ML *)
    "machine learning"; "deep learning"; "ai"; "data science"; "tensorflow";
    "pytorch"; "keras"; "scikit-learn"; "pandas"; "numpy"; "nlp";
    (* Mobile Development *)
    "android"; "ios"; "react native"; "flutter"; "xamarin";
    (* Other Tools & Frameworks *)
    "linux"; "unix"; "agile"; "scrum"; "jira"; "rest api"; "graphql";
    "microservices"; "oauth"; "jwt"; "websocket" ].

Local Close Scope string_scope.

(** [r'\b' + re.escape(skill.lower()) + r'\b'] *)
Definition skill_re (skill : str) : regex :=
  WordB +> word (lower skill) +> WordB.

Definition str_ltb (a b : str) : bool := negb (str_leb b a).

(** [extract_skills] *)
Definition extract_skills (text : str) : list str :=
  let text_lower := lower text in
  let found_skills :=
    map title
      (filter (fun skill => bool_decide (is_Some (search (skill_re skill) text_lower)))
              common_skills) in
  PySort.sorted str_ltb (elements (list_to_set found_skills : gset (list N))).

(** An entry of the experience list. *)
Record experience_entry : Type := ExperienceEntry {
  description : str;
  full_text : str
}.

(** [(work experience|experience|employment|professional experience)(.*?)
     (education|skills|projects|certifications|$)], DOTALL *)
Definition exp_section_re : regex :=
  Group 1 (word (lit "work experience") <|> word (lit "experience")
           <|> word (lit "employment") <|> word (lit "professional experience"))
  +> Group 2 (LazyStar any)
  +> Group 3 (word (lit "education") <|> word (lit "skills")
              <|> word (lit "projects") <|> word (lit "certifications") <|> Eos).

(** [\n\s*\n] *)
Definition blank_line_re : regex :=
  Chr (is_char 10) +> Star is_space +> Chr (is_char 10).

(** [extract_experience] *)
Definition extract_experience (text : str) : list experience_entry :=
  let experiences :=
    match search exp_section_re (lower text) with
    | Some m =>
        let exp_section := group 2 m in
        let exp_entries := Re.split blank_line_re exp_section in
        map (fun entry => {| description := take 200 entry; full_text := entry |})
            (filter (fun entry => Nat.ltb 20 (length entry)) (map strip exp_entries))
    | None => []
    end in
  take 5 experiences.

(** [\+?\s*years?\s*(of)?\s*(experience)?], what follows the number *)
Definition years_tail : regex :=
  Opt (Chr (is_char 43)) +> Star is_space
  +> word (lit "year") +> Opt (Chr (is_char 115)) +> Star is_space
  +> Opt (Group 2 (word (lit "of"))) +> Star is_space
  +> Opt (Group 3 (word (lit "experience"))).

(** [(\d+)\+?\s*years?\s*(of)?\s*(experience)?] *)
Definition years_re : regex := Group 1 (Plus is_digit) +> years_tail.

(** [max] of a non-empty list of integers. *)
Definition max_list (l : list N) : N := fold_right N.max 0%N l.

(** [calculate_experience_years] *)
Definition calculate_experience_years (text : str) : str :=
  let matches := findall years_re (lower text) in
  match matches with
  | _ :: _ =>
      let years := map (fun m => int_of_digits (group 1 m)) matches in
      str_of_N (max_list years) ++ lit " years"
  | [] =>
      let experiences := extract_experience text in
      if Nat.ltb 0 (length experiences) then
        lit "~" ++ str_of_nat (length experiences) ++ lit " positions"
      else lit "Not specified"
  end.

(** *** Contact details *)

(** [re.findall] for a pattern without groups lists the matched texts:
    group 0 is the whole match. *)
Definition findall_text (r : regex) (s : str) : list str :=
  map (group 0) (findall (Group 0 r) s).

(** [\d{n}] *)
Fixpoint digits (n : nat) : regex :=
  match n with
  | O => Eps
  | S k => Chr is_digit +> digits k
  end.

(** [[A-Za-z0-9._%+-]], [[A-Za-z0-9.-]] and [[A-Z|a-z]]; the bar of the
    last class is one of its members. *)
Definition email_local (c : char) : bool :=
  is_cased c || is_digit c || contains c (lit "._%+-").
Definition email_domain (c : char) : bool :=
  is_cased c || is_digit c || contains c (lit ".-").
Definition email_tld (c : char) : bool := is_cased c || (c =? 124)%N.

(** [\b[A-Za-z0-9._%+-]+@[A-Za-z0-9.-]+\.[A-Z|a-z]{2,}\b] *)
Definition email_re : regex :=
  WordB +> Plus email_local +> Chr (is_char 64) +> Plus email_domain
  +> Chr (is_char 46) +> Chr email_tld +> Chr email_tld +> Star email_tld
  +> WordB.

(** [[-.\s]] *)
Definition phone_sep (c : char) : bool := (c =? 45)%N || (c =? 46)%N || is_space c.

(** The three [phone_patterns]:
    [\+?\d{1,3}[-.\s]?\(?\d{3}\)?[-.\s]?\d{3}[-.\s]?\d{4}], [\d{10}] and
    [\+?\d{2}[-.\s]?\d{10}]. *)
Definition phone_patterns : list regex :=
  [ Opt (Chr (is_char 43))
      +> Chr is_digit +> Opt (Chr is_digit +> Opt (Chr is_digit))
      +> Opt (Chr phone_sep) +> Opt (Chr (is_char 40)) +> digits 3
      +> Opt (Chr (is_char 41)) +> Opt (Chr phone_sep) +> digits 3
      +> Opt (Chr phone_sep) +> digits 4;
    digits 10;
    Opt (Chr (is_char 43)) +> digits 2 +> Opt (Chr phone_sep) +> digits 10 ].

(** The loop over the phone patterns: the first match of the first
    pattern that has one. *)
Fixpoint first_phone (patterns : list regex) (text : str) : option str :=
  match patterns with
  | [] => None
  | pattern :: more =>
      match findall_text pattern text with
      | phone :: _ => Some phone
      | [] => first_phone more text
      end
  end.

(** [[\w-]] *)
Definition slug_char (c : char) : bool := is_word c || (c =? 45)%N.

(** [linkedin\.com/in/[\w-]+] and [github\.com/[\w-]+] *)
Definition linkedin_re : regex := word (lit "linkedin.com/in/") +> Plus slug_char.
Definition github_re : regex := word (lit "github.com/") +> Plus slug_char.

(** [\d{3}[-.\s]?\d{3}[-.\s]?\d{4}] *)
Definition phone_like_re : regex :=
  digits 3 +> Opt (Chr phone_sep) +> digits 3 +> Opt (Chr phone_sep) +> digits 4.

(** The test of the name heuristic: two to four words, alphabetic once
    their periods are removed. *)
Definition looks_like_name (line : str) : bool :=
  let words := split_ws line in
  Nat.leb 2 (length words) && Nat.leb (length words) 4
  && forallb (fun word => isalpha (remove_char 46 word)) words.

(** The loop over the first lines: lines with an at sign or a phone-like
    number are skipped, the first line that looks like a name is taken. *)
Fixpoint name_of_lines (lines : list str) : option str :=
  match lines with
  | [] => None
  | l :: more =>
      let line := strip l in
      if contains 64 line || bool_decide (is_Some (search phone_like_re line))
      then name_of_lines more
      else if looks_like_name line then Some line
      else name_of_lines more
  end.

Record contact_info : Type := ContactInfo {
  contact_email : option str;
  contact_phone : option str;
  contact_linkedin : option str;
  contact_github : option str;
  contact_name : str
}.

(** [extract_contact_info] *)
Definition extract_contact_info (text : str) : contact_info :=
  let emails := findall_text email_re text in
  let linkedin := findall_text linkedin_re (lower text) in
  let github := findall_text github_re (lower text) in
  let lines := PyStr.split 10 (strip text) in
  {| contact_email := head emails;
     contact_phone := first_phone phone_patterns text;
     contact_linkedin := option_map (fun l => lit "https://" ++ l) (head linkedin);
     contact_github := option_map (fun g => lit "https://" ++ g) (head github);
     contact_name := default (lit "Unknown") (name_of_lines (take 5 lines)) |}.

(** *** Education *)

(** [(education|academic|qualifications)(.*?)
     (experience|skills|projects|certifications|$)], DOTALL *)
Definition edu_section_re : regex :=
  Group 1 (word (lit "education") <|> word (lit "academic")
           <|> word (lit "qualifications"))
  +> Group 2 (LazyStar any)
  +> Group 3 (word (lit "experience") <|> word (lit "skills")
              <|> word (lit "projects") <|> word (lit "certifications") <|> Eos).

(** A letter, an optional period, and the rest of an abbreviation:
    [b\.?tech] and the like. *)
Definition abbreviation (c : char) (tail : str) : regex :=
  Chr (is_char c) +> Opt (Chr (is_char 46)) +> word tail.

(** The two [degree_patterns]:
    [(bachelor|master|phd|diploma|b\.?tech|m\.?tech|b\.?e|m\.?e|b\.?s|m\.?s|b\.?a|m\.?a)]
    and [(undergraduate|graduate|post[- ]graduate)]. *)
Definition degree_patterns : list regex :=
  [ Group 1 (word (lit "bachelor") <|> word (lit "master") <|> word (lit "phd")
             <|> word (lit "diploma")
             <|> abbreviation 98 (lit "tech") <|> abbreviation 109 (lit "tech")
             <|> abbreviation 98 (lit "e") <|> abbreviation 109 (lit "e")
             <|> abbreviation 98 (lit "s") <|> abbreviation 109 (lit "s")
             <|> abbreviation 98 (lit "a") <|> abbreviation 109 (lit "a"));
    Group 1 (word (lit "undergraduate") <|> word (lit "graduate")
             <|> (word (lit "post") +> Chr (fun c => (c =? 45)%N || (c =? 32)%N)
                  +> word (lit "graduate"))) ].

(** The test on one entry: some degree pattern is found in it and it has
    more than ten characters. *)
Definition mentions_degree (entry : str) : bool :=
  existsb (fun pattern =>
             bool_decide (is_Some (search pattern (lower entry)))
             && Nat.ltb 10 (length entry))
          degree_patterns.

(** [extract_education]; the entries are dictionaries of the same shape
    as those of the experience list. *)
Definition extract_education (text : str) : list experience_entry :=
  let education :=
    match search edu_section_re (lower text) with
    | Some m =>
        let edu_section := group 2 m in
        let edu_entries := Re.split blank_line_re edu_section in
        map (fun entry => {| description := take 200 entry; full_text := entry |})
            (List.filter mentions_degree (map strip edu_entries))
    | None => []
    end in
  take 3 education.

(** *** Reading the file *)

(** What the libraries report for one page: [extract_text()] raises, or
    returns a text or [None].  What they report for a file: [None] when
    opening it raises, or its pages. *)
Inductive page_outcome : Type :=
  | PageRaises
  | PageReturns (page_text : option str).

(** The world outside the program: the pages pdfplumber and PyPDF2 see in
    a file, and the paragraphs python-docx sees. *)
Record file_readers : Type := FileReaders {
  pdfplumber_pages : str -> option (list page_outcome);
  pypdf2_pages : str -> option (list page_outcome);
  docx_paragraphs : str -> option (list str)
}.

(** A returned value or a raised exception with its message. *)
Inductive result (A : Type) : Type :=
  | Returned (value : A)
  | Raised (message : str).
Arguments Returned {A} value.
Arguments Raised {A} message.

(** The first loop of [extract_text_from_pdf]: the text collected, and
    whether a page raised. *)
Fixpoint pdfplumber_loop (pages : list page_outcome) (text : str) : str * bool :=
  match pages with
  | [] => (text, false)
  | PageRaises :: _ => (text, true)
  | PageReturns None :: more => pdfplumber_loop more text
  | PageReturns (Some page_text) :: more =>
      match page_text with
      | [] => pdfplumber_loop more text
      | _ :: _ => pdfplumber_loop more (text ++ page_text ++ [10%N])
      end
  end.

(** The second loop: [None + "\n"] raises as well. *)
Fixpoint pypdf2_loop (pages : list page_outcome) (text : str) : option str :=
  match pages with
  | [] => Some text
  | PageReturns (Some page_text) :: more =>
      pypdf2_loop more (text ++ page_text ++ [10%N])
  | _ :: _ => None
  end.

(** [extract_text_from_pdf] *)
Definition extract_text_from_pdf (io : file_readers) (file_path : str) : result str :=
  let fallback (text : str) :=
    match pypdf2_pages io file_path with
    | Some pages =>
        match pypdf2_loop pages text with
        | Some text' => Returned text'
        | None => Raised (lit "Failed to extract text from PDF")
        end
    | None => Raised (lit "Failed to extract text from PDF")
    end in
  match pdfplumber_pages io file_path with
  | Some pages =>
      let (text, raised) := pdfplumber_loop pages [] in
      if raised then fallback text else Returned text
  | None => fallback []
  end.

(** [extract_text_from_docx] *)
Definition extract_text_from_docx (io : file_readers) (file_path : str) : result str :=
  match docx_paragraphs io file_path with
  | Some paragraphs =>
      Returned (fold_left (fun text paragraph => text ++ paragraph ++ [10%N])
                          paragraphs [])
  | None => Raised (lit "Failed to extract text from DOCX")
  end.

(** *** The whole resume *)

Record resume_counts : Type := ResumeCounts {
  total_skills : nat;
  total_experiences : nat;
  total_education : nat
}.

(** The dictionary [parse_resume] returns. *)
Record parsed_resume : Type := ParsedResume {
  file_path : str;
  raw_text : str;
  candidate_name : str;
  email : option str;
  phone : option str;
  linkedin : option str;
  github : option str;
  skills : list str;
  experience : list experience_entry;
  education : list experience_entry;
  experience_years : str;
  parsed_data : resume_counts
}.

(** [parse_resume]; every exception is raised again with the prefix
    "Failed to parse resume: ". *)
Definition parse_resume (io : file_readers) (path : str) : result parsed_resume :=
  let extracted :=
    if endswith (lower path) (lit ".pdf") then extract_text_from_pdf io path
    else if endswith (lower path) (lit ".docx") then extract_text_from_docx io path
    else Raised (lit "Unsupported file format. Only PDF and DOCX are supported.") in
  match extracted with
  | Returned text =>
      let info := extract_contact_info text in
      let found_skills := extract_skills text in
      let found_experience := extract_experience text in
      let found_education := extract_education text in
      let exp_years := calculate_experience_years text in
      Returned
        {| file_path := path;
           raw_text := text;
           candidate_name := contact_name info;
           email := contact_email info;
           phone := contact_phone info;
           linkedin := contact_linkedin info;
           github := contact_github info;
           skills := found_skills;
           experience := found_experience;
           education := found_education;
           experience_years := exp_years;
           parsed_data :=
             {| total_skills := length found_skills;
                total_experiences := length found_experience;
                total_education := length found_education |} |}
  | Raised e => Raised (lit "Failed to parse resume: " ++ e)
  end.

(** [get_resume_summary], on the dictionary [parse_resume] returns. *)
Definition get_resume_summary (parsed : parsed_resume) : str :=
  let summary_parts :=
    [lit "Candidate: " ++ candidate_name parsed]
    ++ match email parsed with
       | Some (c :: e) => [lit "Email: " ++ c :: e]
       | _ => []
       end
    ++ match skills parsed with
       | _ :: _ => [lit "Skills: " ++ join (lit ", ") (take 10 (skills parsed))]
       | [] => []
       end
    ++ match experience_years parsed with
       | _ :: _ => [lit "Experience: " ++ experience_years parsed]
       | [] => []
       end in
  join (lit " | ") summary_parts.

(** Readers for a file whose pages, or paragraphs, are the given texts
    and which both PDF libraries read without an error. *)
Definition readers_of_pages (pages : list str) : file_readers :=
  {| pdfplumber_pages := fun _ => Some (map (fun t => PageReturns (Some t)) pages);
     pypdf2_pages := fun _ => Some (map (fun t => PageReturns (Some t)) pages);
     docx_paragraphs := fun _ => Some pages |}.

(** *** Notions used to state the properties *)

(** Word boundary between two neighbouring positions. *)
Definition word_boundary (before next : option char) : Prop :=
  xorb (is_word_opt before) (is_word_opt next) = true.

(** [w] occurs in [s] with a word boundary on each side. *)
Definition occurs_bounded (w s : str) : Prop :=
  exists pre post,
    s = pre ++ w ++ post
    /\ word_boundary (last pre) (head (w ++ post))
    /\ word_boundary (last (pre ++ w)) (head post).



End ResumeParser.

(** ** [src/app.py] *)

Module App.

Import PyStr.

Definition ALLOWED_EXTENSIONS : list str := [lit "pdf"; lit "docx"].

(** [allowed_file] *)
Definition allowed_file (filename : str) : bool :=
  contains 46 filename
  && match rsplit_once 46 filename !! 1%nat with
     | Some extension => bool_decide (lower extension ∈ ALLOWED_EXTENSIONS)
     | None => false
     end.

End App.

(** * Properties *)

(** ** Rounding to binary64 is monotone and exact on the scale ends *)

Module FloatFacts.

Import Float LLMMatcher.
Local Open Scope Q_scope.

Lemma rhe_spec (q : Q) :
  let z := rhe q in
  let n := Qnum q in
  let d := Zpos (Qden q) in
  ((- d <= 2 * (n - z * d) <= d) /\
   (2 * (n - z * d) = d -> Z.even z = true) /\
   (2 * (n - z * d) = - d -> Z.even z = true))%Z.
Proof.
  unfold rhe. destruct q as [n d]; cbn [Qnum Qden].
  pose proof (Z.div_mod n (Zpos d) ltac:(lia)) as Hdm.
  pose proof (Z.mod_pos_bound n (Zpos d) ltac:(lia)) as Hb.
  set (f := (n / Zpos d)%Z) in *. set (r := (n mod Zpos d)%Z) in *.
  destruct (Z.compare_spec (2 * r) (Zpos d)) as [He | Hl | Hg].
  - destruct (Z.even f) eqn:Hev.
    + repeat split; intros; try lia; try assumption.
    + assert (Z.even (f + 1) = true) by (rewrite Z.even_add, Hev; reflexivity).
      repeat split; intros; try lia; try assumption.
  - repeat split; intros; try lia.
  - repeat split; intros; try lia.
Qed.

Lemma rhe_mono (p q : Q) : p <= q -> (rhe p <= rhe q)%Z.
Proof.
  intros Hle. unfold Qle in Hle.
  destruct (rhe_spec p) as (Hp1 & Hp2 & Hp3).
  destruct (rhe_spec q) as (Hq1 & Hq2 & Hq3).
  cbv zeta in *.
  set (zp := rhe p) in *. set (zq := rhe q) in *.
  destruct p as [np dp], q as [nq dq]; cbn [Qnum Qden] in *.
  destruct (Z_le_gt_dec zp zq) as [|Hgt]; [assumption|exfalso].
  assert (A : ((2 * zp - 1) * (Zpos dp * Zpos dq) <= 2 * np * Zpos dq)%Z).
  { replace ((2 * zp - 1) * (Zpos dp * Zpos dq))%Z
      with (((2 * zp - 1) * Zpos dp) * Zpos dq)%Z by ring.
    apply Z.mul_le_mono_nonneg_r; lia. }
  assert (B : (2 * nq * Zpos dp <= (2 * zq + 1) * (Zpos dp * Zpos dq))%Z).
  { replace ((2 * zq + 1) * (Zpos dp * Zpos dq))%Z
      with (((2 * zq + 1) * Zpos dq) * Zpos dp)%Z by ring.
    apply Z.mul_le_mono_nonneg_r; lia. }
  assert (C : ((2 * zp - 1) * (Zpos dp * Zpos dq)
               <= (2 * zq + 1) * (Zpos dp * Zpos dq))%Z) by lia.
  assert (Hz : (zp = zq + 1)%Z).
  { apply Z.mul_le_mono_pos_r in C; lia. }
  assert (H1 : (2 * (np - zp * Zpos dp) = - Zpos dp)%Z).
  { subst zp. 
    assert ((2 * (zq + 1) - 1) * (Zpos dp * Zpos dq) = 2 * np * Zpos dq)%Z by lia.
    assert (((2 * (zq + 1) - 1) * Zpos dp) * Zpos dq = (2 * np) * Zpos dq)%Z by lia.
    apply Z.mul_cancel_r in H0; lia. }
  assert (H2 : (2 * (nq - zq * Zpos dq) = Zpos dq)%Z).
  { subst zp.
    assert ((2 * nq) * Zpos dp = ((2 * zq + 1) * Zpos dq) * Zpos dp)%Z by lia.
    apply Z.mul_cancel_r in H; lia. }
  specialize (Hp3 H1). specialize (Hq2 H2).
  rewrite Hz, Z.even_add, Hq2 in Hp3. discriminate.
Qed.

Lemma rhe_inject (z : Z) : rhe (inject_Z z) = z.
Proof.
  unfold rhe, inject_Z; cbn [Qnum Qden].
  rewrite Z.div_1_r, Z.mod_1_r. reflexivity.
Qed.


Lemma two_neq0 : ~ (2 == 0).
Proof. discriminate. Qed.

Lemma pow2_pos (e : Z) : 0 < 2 ^ e.
Proof. apply Qpower_0_lt. reflexivity. Qed.

Lemma pow2_plus (a b : Z) : 2 ^ (a + b) == 2 ^ a * 2 ^ b.
Proof. apply Qpower_plus, two_neq0. Qed.

Lemma pow2_le (a b : Z) : (a <= b)%Z -> 2 ^ a <= 2 ^ b.
Proof. intros H. apply Qpower_le_compat_l; [assumption|discriminate]. Qed.

Lemma pow2_lt_inv (a b : Z) : 2 ^ a < 2 ^ b -> (a < b)%Z.
Proof. intros H. apply (Qpower_lt_compat_l_inv 2); [assumption|reflexivity]. Qed.

Lemma pow2_inject (n : Z) : (0 <= n)%Z -> inject_Z (2 ^ n) == 2 ^ n.
Proof. intros H. rewrite Zpower_Qpower by assumption. reflexivity. Qed.

Lemma Qdiv_pow2_le (x y : Q) (e : Z) : x <= y -> x / 2 ^ e <= y / 2 ^ e.
Proof.
  intros H. unfold Qdiv. apply Qmult_le_compat_r; [assumption|].
  apply Qinv_le_0_compat, Qlt_le_weak, pow2_pos.
Qed.

Lemma flog2_spec (q : Q) :
  0 < q -> 2 ^ flog2 q <= q /\ q < 2 ^ (flog2 q + 1).
Proof.
  intros Hq. unfold flog2.
  destruct q as [a d]. cbn [Qnum Qden].
  assert (Ha : (0 < a)%Z) by (unfold Qlt in Hq; cbn in Hq; lia).
  set (la := Z.log2 a). set (lb := Z.log2 (Zpos d)).
  destruct (Z.log2_spec a Ha) as [Ha1 Ha2]. fold la in Ha1, Ha2.
  destruct (Z.log2_spec (Zpos d) ltac:(lia)) as [Hb1 Hb2]. fold lb in Hb1, Hb2.
  assert (Hla : (0 <= la)%Z) by apply Z.log2_nonneg.
  assert (Hlb : (0 <= lb)%Z) by apply Z.log2_nonneg.
  assert (Hqb : (a # d) * inject_Z (Zpos d) == inject_Z a).
  { unfold Qeq, Qmult, inject_Z; cbn. lia. }
  assert (Qa1 : 2 ^ la <= inject_Z a).
  { rewrite <- pow2_inject by assumption. rewrite <- Zle_Qle. assumption. }
  assert (Qa2 : inject_Z a < 2 ^ (la + 1)).
  { rewrite <- pow2_inject by lia. rewrite <- Zlt_Qlt.
    replace (la + 1)%Z with (Z.succ la) by lia. assumption. }
  assert (Qb1 : 2 ^ lb <= inject_Z (Zpos d)).
  { rewrite <- pow2_inject by assumption. rewrite <- Zle_Qle. assumption. }
  assert (Qb2 : inject_Z (Zpos d) <= 2 ^ (lb + 1)).
  { rewrite <- pow2_inject by lia. rewrite <- Zle_Qle.
    replace (lb + 1)%Z with (Z.succ lb) by lia. lia. }
  assert (Hup : (a # d) < 2 ^ (la - lb + 1)).
  { replace (la - lb + 1)%Z with ((la + 1) - lb)%Z by lia.
    rewrite Qpower_minus by apply two_neq0.
    apply Qlt_shift_div_l; [apply pow2_pos|].
    apply Qle_lt_trans with (2 := Qa2). rewrite <- Hqb.
    rewrite !(Qmult_comm (a # d)).
    apply Qmult_le_compat_r; [assumption|]. apply Qlt_le_weak, Hq. }
  assert (Hlo : 2 ^ (la - lb - 1) <= (a # d)).
  { replace (la - lb - 1)%Z with (la - (lb + 1))%Z by lia.
    rewrite Qpower_minus by apply two_neq0.
    apply Qle_shift_div_r; [apply pow2_pos|].
    apply Qle_trans with (1 := Qa1). rewrite <- Hqb.
    rewrite !(Qmult_comm (a # d)).
    apply Qmult_le_compat_r; [assumption|]. apply Qlt_le_weak, Hq. }
  destruct (Qle_bool (2 ^ (la - lb)) (a # d)) eqn:Hc.
  - apply Qle_bool_iff in Hc. split; assumption.
  - split; [assumption|].
    replace (la - lb - 1 + 1)%Z with (la - lb)%Z by lia.
    apply Qnot_le_lt. intros Hle. apply Qle_bool_iff in Hle. congruence.
Qed.

Lemma flog2_mono (x y : Q) : 0 < x -> x <= y -> (flog2 x <= flog2 y)%Z.
Proof.
  intros Hx Hxy.
  destruct (flog2_spec x Hx) as [Hx1 _].
  destruct (flog2_spec y (Qlt_le_trans _ _ _ Hx Hxy)) as [_ Hy2].
  assert (H : 2 ^ flog2 x < 2 ^ (flog2 y + 1)).
  { apply Qle_lt_trans with (1 := Hx1). apply Qle_lt_trans with (1 := Hxy). assumption. }
  apply pow2_lt_inv in H. lia.
Qed.

Lemma RNpos_eq (q : Q) :
  RNpos q == inject_Z (rhe (q / 2 ^ Z.max (flog2 q - 52) emin))
             * 2 ^ Z.max (flog2 q - 52) emin.
Proof. unfold RNpos. apply Qred_correct. Qed.

Lemma RNpos_mono (x y : Q) : 0 < x -> x <= y -> RNpos x <= RNpos y.
Proof.
  intros Hx Hxy. rewrite !RNpos_eq.
  assert (Hy : 0 < y) by (apply Qlt_le_trans with (1 := Hx); assumption).
  pose proof (flog2_mono x y Hx Hxy) as Hf.
  destruct (flog2_spec x Hx) as [_ Hx2].
  destruct (flog2_spec y Hy) as [Hy1 _].
  set (ex := Z.max (flog2 x - 52) emin) in *.
  set (ey := Z.max (flog2 y - 52) emin) in *.
  destruct (Z.eq_dec ex ey) as [He | Hne].
  - rewrite <- He. apply Qmult_le_compat_r; [|apply Qlt_le_weak, pow2_pos].
    rewrite <- Zle_Qle. apply rhe_mono, Qdiv_pow2_le, Hxy.
  - assert (Hlt : (ex + 1 <= ey)%Z) by (subst ex ey; lia).
    assert (Hey : ey = (flog2 y - 52)%Z) by (subst ex ey; lia).
    assert (Hex : (flog2 x + 1 <= ex + 53)%Z) by (subst ex; lia).
    apply Qle_trans with (2 ^ (ex + 53)).
    + rewrite (Z.add_comm ex), pow2_plus.
      apply Qmult_le_compat_r; [|apply Qlt_le_weak, pow2_pos].
      rewrite <- (pow2_inject 53) by lia. rewrite <- Zle_Qle.
      rewrite <- (rhe_inject (2 ^ 53)). apply rhe_mono.
      apply Qle_shift_div_r; [apply pow2_pos|].
      rewrite (pow2_inject 53) by lia. rewrite <- pow2_plus.
      apply Qlt_le_weak. apply Qlt_le_trans with (1 := Hx2).
      apply pow2_le. lia.
    + apply Qle_trans with (2 ^ (ey + 52)); [apply pow2_le; lia|].
      rewrite (Z.add_comm ey), pow2_plus.
      apply Qmult_le_compat_r; [|apply Qlt_le_weak, pow2_pos].
      rewrite <- (pow2_inject 52) by lia. rewrite <- Zle_Qle.
      rewrite <- (rhe_inject (2 ^ 52)) at 1. apply rhe_mono.
      apply Qle_shift_div_l; [apply pow2_pos|].
      rewrite (pow2_inject 52) by lia. rewrite <- pow2_plus.
      replace (52 + ey)%Z with (flog2 y) by lia. assumption.
Qed.

Lemma RNpos_nonneg (q : Q) : 0 < q -> 0 <= RNpos q.
Proof.
  intros Hq.
  rewrite RNpos_eq. apply Qmult_le_0_compat; [|apply Qlt_le_weak, pow2_pos].
  change 0 with (inject_Z 0). rewrite <- Zle_Qle.
  rewrite <- (rhe_inject 0) at 1. apply rhe_mono.
  apply Qle_shift_div_l; [apply pow2_pos|].
  rewrite Qmult_0_l. apply Qlt_le_weak, Hq.
Qed.

Lemma Qnum_pos_lt (n : positive) (d : positive) : 0 < Zpos n # d.
Proof. reflexivity. Qed.

Lemma RN_nonneg (x : Q) : 0 <= x -> 0 <= RN x.
Proof.
  intros Hx. unfold RN. destruct x as [[|n|n] d]; cbn [Qnum].
  - apply Qle_refl.
  - apply RNpos_nonneg, Qnum_pos_lt.
  - exfalso. revert Hx. unfold Qle; cbn. lia.
Qed.

Lemma RN_mono (x y : Q) : 0 <= x -> x <= y -> RN x <= RN y.
Proof.
  intros Hx Hxy.
  assert (Hy : 0 <= y) by (apply Qle_trans with (1 := Hx); assumption).
  destruct x as [[|n|n] d].
  - apply (RN_nonneg _ Hy).
  - destruct y as [[|m|m] e].
    + exfalso. revert Hxy. unfold Qle; cbn. lia.
    + unfold RN; cbn [Qnum]. apply RNpos_mono; [apply Qnum_pos_lt|assumption].
    + exfalso. revert Hy. unfold Qle; cbn. lia.
  - exfalso. revert Hx. unfold Qle; cbn. lia.
Qed.

Lemma RN_between (a b x : Q) :
  0 <= a -> a <= x -> x <= b -> RN a <= RN x /\ RN x <= RN b.
Proof.
  intros Ha Hax Hxb. split; apply RN_mono; try assumption.
  apply Qle_trans with (1 := Ha); assumption.
Qed.

(** On every pair [0 <= m <= n < 30] the rounding model computes the
    same number as the Standard Library's binary64 operations. *)
Lemma binary64_agreement :
  forallb (fun n => forallb (fun m => agrees_with_binary64 (Z.of_nat m) (Z.of_nat n))
                            (seq 0 (S n)))
          (seq 1 29) = true.
Proof. vm_compute. reflexivity. Qed.

Lemma RN_0 : RN 0 = 0. Proof. reflexivity. Qed.
Lemma RN_1 : RN 1 = 1. Proof. vm_compute. reflexivity. Qed.
Lemma RN_9 : RN 9 = 9. Proof. vm_compute. reflexivity. Qed.
Lemma RN_10 : RN 10 = 10. Proof. vm_compute. reflexivity. Qed.

Lemma round1_mono (x y : Q) : 0 <= x -> x <= y -> round1 x <= round1 y.
Proof.
  intros Hx Hxy. unfold round1.
  assert (H0 : (0 <= rhe (x * 10))%Z).
  { rewrite <- (rhe_inject 0) at 1. apply rhe_mono.
    apply Qmult_le_0_compat; [assumption|discriminate]. }
  apply RN_mono.
  - apply Qle_shift_div_l; [reflexivity|]. rewrite Qmult_0_l.
    change 0 with (inject_Z 0). rewrite <- Zle_Qle. assumption.
  - unfold Qdiv. apply Qmult_le_compat_r; [|discriminate].
    rewrite <- Zle_Qle. apply rhe_mono.
    apply Qmult_le_compat_r; [assumption|discriminate].
Qed.

Lemma round1_1 : round1 1 = 1. Proof. vm_compute. reflexivity. Qed.
Lemma round1_10 : round1 10 = 10. Proof. vm_compute. reflexivity. Qed.

Lemma ratio_bounds (m n : Z) :
  (0 <= m <= n)%Z -> (0 < n)%Z ->
  0 <= inject_Z m / inject_Z n /\ inject_Z m / inject_Z n <= 1.
Proof.
  intros Hm Hn.
  assert (Hn' : 0 < inject_Z n) by (change 0 with (inject_Z 0); rewrite <- Zlt_Qlt; assumption).
  split.
  - apply Qle_shift_div_l; [assumption|]. rewrite Qmult_0_l.
    change 0 with (inject_Z 0). rewrite <- Zle_Qle. lia.
  - apply Qle_shift_div_r; [assumption|]. rewrite Qmult_1_l.
    rewrite <- Zle_Qle. lia.
Qed.

Lemma ratio_mono (m1 m2 n : Z) :
  (m1 <= m2)%Z -> (0 < n)%Z ->
  inject_Z m1 / inject_Z n <= inject_Z m2 / inject_Z n.
Proof.
  intros Hm Hn. unfold Qdiv. apply Qmult_le_compat_r.
  - rewrite <- Zle_Qle. assumption.
  - apply Qinv_le_0_compat. change 0 with (inject_Z 0). rewrite <- Zle_Qle. lia.
Qed.

Lemma pre_score_bounds (m n : Z) :
  (0 <= m <= n)%Z -> (0 < n)%Z ->
  1 <= fadd 1 (fmul (int_truediv m n) 9) /\ fadd 1 (fmul (int_truediv m n) 9) <= 10.
Proof.
  intros Hm Hn. destruct (ratio_bounds m n Hm Hn) as [Hr0 Hr1].
  destruct (RN_between 0 1 _ (Qle_refl 0) Hr0 Hr1) as [Hp0 Hp1].
  rewrite RN_0 in Hp0. rewrite RN_1 in Hp1. fold (int_truediv m n) in Hp0, Hp1.
  set (p := int_truediv m n) in *.
  assert (Hq0 : 0 <= p * 9) by (apply Qmult_le_0_compat; [assumption|discriminate]).
  assert (Hq1 : p * 9 <= 9).
  { apply Qle_trans with (1 * 9); [|discriminate].
    apply Qmult_le_compat_r; [assumption|discriminate]. }
  destruct (RN_between 0 9 _ (Qle_refl 0) Hq0 Hq1) as [Hm0 Hm1].
  rewrite RN_0 in Hm0. rewrite RN_9 in Hm1. fold (fmul p 9) in Hm0, Hm1.
  set (t := fmul p 9) in *.
  assert (Hs0 : 1 <= 1 + t).
  { apply Qle_trans with (1 + 0); [discriminate|].
    apply Qplus_le_compat; [apply Qle_refl|assumption]. }
  assert (Hs1 : 1 + t <= 10).
  { apply Qle_trans with (1 + 9); [|discriminate].
    apply Qplus_le_compat; [apply Qle_refl|assumption]. }
  assert (H01 : 0 <= 1) by discriminate.
  destruct (RN_between 1 10 _ H01 Hs0 Hs1) as [Ha0 Ha1].
  rewrite RN_1 in Ha0. rewrite RN_10 in Ha1. split; assumption.
Qed.

Lemma score_of_bounds (m n : Z) :
  (0 <= m <= n)%Z -> (0 < n)%Z -> 1 <= score_of m n /\ score_of m n <= 10.
Proof.
  intros Hm Hn. destruct (pre_score_bounds m n Hm Hn) as [H1 H2].
  unfold score_of. split.
  - rewrite <- round1_1 at 1. apply round1_mono; [discriminate|assumption].
  - rewrite <- round1_10. apply round1_mono; [|assumption].
    apply Qle_trans with (2 := H1). discriminate.
Qed.

Lemma score_of_mono (m1 m2 n : Z) :
  (0 <= m1 <= m2)%Z -> (0 < n)%Z -> score_of m1 n <= score_of m2 n.
Proof.
  intros Hm Hn. unfold score_of.
  assert (Hr := ratio_mono m1 m2 n (proj2 Hm) Hn).
  assert (Hr0 : 0 <= inject_Z m1 / inject_Z n).
  { apply Qle_shift_div_l.
    - change 0 with (inject_Z 0). rewrite <- Zlt_Qlt. assumption.
    - rewrite Qmult_0_l. change 0 with (inject_Z 0). rewrite <- Zle_Qle. lia. }
  assert (Hp := RN_mono _ _ Hr0 Hr). fold (int_truediv m1 n) (int_truediv m2 n) in Hp.
  assert (Hp0 : 0 <= int_truediv m1 n) by (apply (RN_nonneg _ Hr0)).
  assert (Hq0 : 0 <= int_truediv m1 n * 9)
    by (apply Qmult_le_0_compat; [assumption|discriminate]).
  assert (Hq : fmul (int_truediv m1 n) 9 <= fmul (int_truediv m2 n) 9).
  { apply RN_mono; [assumption|]. apply Qmult_le_compat_r; [assumption|discriminate]. }
  assert (Ht0 : 0 <= fmul (int_truediv m1 n) 9) by (apply (RN_nonneg _ Hq0)).
  assert (Hs0 : 0 <= 1 + fmul (int_truediv m1 n) 9).
  { apply Qle_trans with (0 + 0); [discriminate|].
    apply Qplus_le_compat; [discriminate|assumption]. }
  apply round1_mono.
  - apply (RN_nonneg _ Hs0).
  - apply RN_mono; [assumption|]. apply Qplus_le_compat; [apply Qle_refl|assumption].
Qed.

End FloatFacts.

(** ** The matcher computes the relation [matches] *)

Module ReFacts.

Import PyStr Re.
Local Open Scope re_scope.

Lemma mstate_eta (st : mstate) : MState (prev st) (rest st) (caps st) = st.
Proof. destruct st; reflexivity. Qed.

Lemma star_greedy_sound {A} p (k : mstate -> option A) s : forall pv cs x,
  star_greedy p k pv s cs = Some x ->
  exists st', matches (Star p) (MState pv s cs) st' /\ k st' = Some x.
Proof.
  induction s as [|c t IH]; intros pv cs x H; cbn in H.
  - eexists; split; [apply M_StarNil|exact H].
  - destruct (p c) eqn:Hp.
    + destruct (star_greedy p k (Some c) t cs) as [r|] eqn:Hr.
      * inversion H; subst r. destruct (IH _ _ _ Hr) as (st' & Hm & Hk).
        exists st'; split; [apply M_StarCons; assumption|assumption].
      * eexists; split; [apply M_StarNil|exact H].
    + eexists; split; [apply M_StarNil|exact H].
Qed.

Lemma star_lazy_sound {A} p (k : mstate -> option A) s : forall pv cs x,
  star_lazy p k pv s cs = Some x ->
  exists st', matches (LazyStar p) (MState pv s cs) st' /\ k st' = Some x.
Proof.
  induction s as [|c t IH]; intros pv cs x H; cbn in H.
  - destruct (k (MState pv [] cs)) as [r|] eqn:Hk; [|discriminate].
    eexists; split; [apply M_LazyNil|]. rewrite Hk; exact H.
  - destruct (k (MState pv (c :: t) cs)) as [r|] eqn:Hk.
    + eexists; split; [apply M_LazyNil|]. rewrite Hk; exact H.
    + destruct (p c) eqn:Hp; [|discriminate].
      destruct (IH _ _ _ H) as (st' & Hm & Hk').
      exists st'; split; [apply M_LazyCons; assumption|assumption].
Qed.

Theorem rmatch_sound {A} (r : regex) : forall (k : mstate -> option A) st x,
  rmatch r k st = Some x -> exists st', matches r st st' /\ k st' = Some x.
Proof.
  induction r as [|p|a IHa b IHb|a IHa b IHb|a IHa|p|p|n a IHa| |];
    intros k st x H; cbn [rmatch] in H.
  - exists st; split; [constructor|assumption].
  - destruct st as [pv [|c t] cs]; cbn in H; [discriminate|].
    destruct (p c) eqn:Hp; [|discriminate].
    eexists; split; [apply M_Chr; assumption|exact H].
  - destruct (IHa _ _ _ H) as (st2 & Ha & H2).
    destruct (IHb _ _ _ H2) as (st3 & Hb & H3).
    exists st3; split; [econstructor; eassumption|assumption].
  - destruct (rmatch a k st) as [y|] eqn:Hy.
    + inversion H; subst y. destruct (IHa _ _ _ Hy) as (st' & Hm & Hk).
      exists st'; split; [apply M_AltL; assumption|assumption].
    + destruct (IHb _ _ _ H) as (st' & Hm & Hk).
      exists st'; split; [apply M_AltR; assumption|assumption].
  - destruct (rmatch a k st) as [y|] eqn:Hy.
    + inversion H; subst y. destruct (IHa _ _ _ Hy) as (st' & Hm & Hk).
      exists st'; split; [apply M_OptSome; assumption|assumption].
    + exists st; split; [apply M_OptNone|assumption].
  - destruct (star_greedy_sound _ _ _ _ _ _ H) as (st' & Hm & Hk).
    rewrite mstate_eta in Hm. eauto.
  - destruct (star_lazy_sound _ _ _ _ _ _ H) as (st' & Hm & Hk).
    rewrite mstate_eta in Hm. eauto.
  - destruct (IHa _ _ _ H) as (st' & Hm & Hk).
    eexists; split; [apply M_Group; eassumption|exact Hk].
  - destruct (at_end st) eqn:He; [|discriminate].
    exists st; split; [apply M_Eos; assumption|assumption].
  - destruct (at_boundary st) eqn:He; [|discriminate].
    exists st; split; [apply M_WordB; assumption|assumption].
Qed.

(** Conversely, whatever can match is found, possibly through an
    alternative tried earlier. *)
Theorem rmatch_complete {A} (r : regex) st st' :
  matches r st st' ->
  forall (k : mstate -> option A), is_Some (k st') -> is_Some (rmatch r k st).
Proof.
  induction 1; intros k Hk; cbn [rmatch].
  - assumption.
  - cbn. rewrite H. assumption.
  - apply IHmatches1. apply IHmatches2. assumption.
  - destruct (rmatch a k st) eqn:E; [eauto|].
    specialize (IHmatches k Hk). rewrite E in IHmatches. destruct IHmatches; discriminate.
  - destruct (rmatch a k st) eqn:E; [eauto|]. apply IHmatches; assumption.
  - destruct (rmatch a k st) eqn:E; [eauto|].
    specialize (IHmatches k Hk). rewrite E in IHmatches. destruct IHmatches; discriminate.
  - destruct (rmatch a k st) eqn:E; [eauto|]. assumption.
  - destruct st as [pv [|c t] cs]; cbn.
    + assumption.
    + destruct (p c); [|assumption].
      destruct (star_greedy p k (Some c) t cs); [eauto|assumption].
  - cbn. rewrite H.
    specialize (IHmatches k Hk). cbn [rmatch prev rest caps] in IHmatches.
    destruct (star_greedy p k (Some c) t cs) eqn:E; [eauto|].
    destruct IHmatches; discriminate.
  - destruct st as [pv [|c t] cs]; cbn.
    + destruct Hk as [y ->]. eauto.
    + destruct Hk as [y ->]. eauto.
  - cbn. destruct (k (MState pv (c :: t) cs)); [eauto|]. rewrite H.
    apply (IHmatches k Hk).
  - apply IHmatches. assumption.
  - rewrite H. assumption.
  - rewrite H. assumption.
Qed.

Lemma after_nil pv : after pv [] = pv.
Proof. reflexivity. Qed.

Lemma after_cons pv c u : after pv (c :: u) = after (Some c) u.
Proof.
  unfold after. destruct u as [|d u]; [reflexivity|].
  change (last (c :: d :: u)) with (last (d :: u)).
  destruct (last (d :: u)) eqn:E; [reflexivity|].
  apply last_None in E. discriminate.
Qed.

Lemma after_app pv u v : after pv (u ++ v) = after (after pv u) v.
Proof.
  revert pv. induction u as [|c u IH]; intros pv; [reflexivity|].
  cbn [app]. rewrite !after_cons. apply IH.
Qed.


(** Inversion of [matches], one lemma per constructor of [regex]. *)
Lemma matches_eps_inv st st' : matches Eps st st' -> st' = st.
Proof. inversion 1; reflexivity. Qed.

Lemma matches_chr_inv p st st' :
  matches (Chr p) st st' ->
  exists c, p c = true /\ rest st = c :: rest st'
            /\ prev st' = Some c /\ caps st' = caps st.
Proof. inversion 1; subst. exists c. cbn. auto. Qed.

Lemma matches_seq_inv a b st st' :
  matches (a +> b) st st' -> exists st2, matches a st st2 /\ matches b st2 st'.
Proof. inversion 1; subst. eauto. Qed.

Lemma matches_alt_inv a b st st' :
  matches (a <|> b) st st' -> matches a st st' \/ matches b st st'.
Proof. inversion 1; subst; auto. Qed.

Lemma matches_opt_inv a st st' :
  matches (Opt a) st st' -> matches a st st' \/ st' = st.
Proof. inversion 1; subst; auto. Qed.

Lemma matches_group_inv n a st st' :
  matches (Group n a) st st' ->
  exists st2, matches a st st2
              /\ st' = MState (prev st2) (rest st2) ((n, consumed st st2) :: caps st2).
Proof. inversion 1; subst. eauto. Qed.

Lemma matches_eos_inv st st' : matches Eos st st' -> st' = st /\ at_end st = true.
Proof. inversion 1; subst; auto. Qed.

Lemma matches_wordb_inv st st' :
  matches WordB st st' -> st' = st /\ at_boundary st = true.
Proof. inversion 1; subst; auto. Qed.

Lemma matches_star_inv p st st' :
  matches (Star p) st st' ->
  exists u, rest st = u ++ rest st' /\ forallb p u = true
            /\ prev st' = after (prev st) u /\ caps st' = caps st.
Proof.
  remember (Star p) as r eqn:Er. induction 1; inversion Er; subst.
  - exists []. auto.
  - destruct (IHmatches eq_refl) as (u & Hu & Hp & Hv & Hc).
    exists (c :: u). cbn [rest prev caps] in *. rewrite Hu, after_cons.
    cbn [forallb]. rewrite H, Hp. auto.
Qed.

Lemma matches_lazy_inv p st st' :
  matches (LazyStar p) st st' ->
  exists u, rest st = u ++ rest st' /\ forallb p u = true
            /\ prev st' = after (prev st) u /\ caps st' = caps st.
Proof.
  remember (LazyStar p) as r eqn:Er. induction 1; inversion Er; subst.
  - exists []. auto.
  - destruct (IHmatches eq_refl) as (u & Hu & Hp & Hv & Hc).
    exists (c :: u). cbn [rest prev caps] in *. rewrite Hu, after_cons.
    cbn [forallb]. rewrite H, Hp. auto.
Qed.

(** A match reads a prefix of the text: nothing before the cursor is
    looked at again, nothing is skipped. *)
Lemma matches_rest r st st' :
  matches r st st' ->
  exists u, rest st = u ++ rest st' /\ prev st' = after (prev st) u.
Proof.
  induction 1; cbn [rest prev].
  - exists []; auto.
  - exists [c]; auto.
  - destruct IHmatches1 as (u & Hu & Pu). destruct IHmatches2 as (v & Hv & Pv).
    exists (u ++ v). rewrite Hu, Hv, <- app_assoc, Pv, Pu, after_app. auto.
  - assumption.
  - assumption.
  - assumption.
  - exists []; auto.
  - exists []; auto.
  - destruct IHmatches as (u & Hu & Pu). cbn [rest prev] in *.
    exists (c :: u). rewrite Hu, after_cons. auto.
  - exists []; auto.
  - destruct IHmatches as (u & Hu & Pu). cbn [rest prev] in *.
    exists (c :: u). rewrite Hu, after_cons. auto.
  - assumption.
  - exists []; auto.
  - exists []; auto.
Qed.

Lemma matches_word_inv w st st' :
  matches (word w) st st' ->
  rest st = w ++ rest st' /\ prev st' = after (prev st) w /\ caps st' = caps st.
Proof.
  revert st. induction w as [|c w IH]; intros st H; cbn in H.
  - apply matches_eps_inv in H. subst. auto.
  - apply matches_seq_inv in H as (st2 & H1 & H2).
    apply matches_chr_inv in H1 as (d & Hd & Hr & Hp & Hc).
    apply IH in H2 as (Hr2 & Hp2 & Hc2).
    unfold is_char in Hd. apply N.eqb_eq in Hd. subst d.
    rewrite Hr, Hr2, Hp2, Hp, Hc2, Hc, after_cons. auto.
Qed.

Lemma matches_word_i_inv w st st' :
  matches (word_i w) st st' ->
  exists u, rest st = u ++ rest st' /\ lower u = lower w
            /\ prev st' = after (prev st) u /\ caps st' = caps st.
Proof.
  revert st. induction w as [|c w IH]; intros st H; cbn in H.
  - apply matches_eps_inv in H. subst. exists []. auto.
  - apply matches_seq_inv in H as (st2 & H1 & H2).
    apply matches_chr_inv in H1 as (d & Hd & Hr & Hp & Hc).
    apply IH in H2 as (u & Hr2 & Hl & Hp2 & Hc2).
    unfold is_char_i in Hd. apply N.eqb_eq in Hd.
    exists (d :: u). rewrite Hr, Hr2, Hp2, Hp, Hc2, Hc, after_cons.
    cbn [lower map]. fold (lower u) (lower w). rewrite Hd, Hl. auto.
Qed.

Lemma matches_word_intro w pv t cs :
  matches (word w) (MState pv (w ++ t) cs) (MState (after pv w) t cs).
Proof.
  revert pv. induction w as [|c w IH]; intros pv; cbn.
  - constructor.
  - eapply M_Seq.
    + apply M_Chr. unfold is_char. apply N.eqb_refl.
    + rewrite after_cons. apply IH.
Qed.

(** [re.search] finds a match exactly when some cursor position has one. *)
Lemma search_from_sound r s : forall pv m,
  search_from r pv s = Some m ->
  exists pre post, s = pre ++ post /\ match_at r (after pv pre) post = Some m.
Proof.
  induction s as [|c t IH]; intros pv m H; cbn [search_from] in H.
  - destruct (match_at r pv []) eqn:E; [|discriminate].
    inversion H; subst. exists [], []. auto.
  - destruct (match_at r pv (c :: t)) eqn:E.
    + inversion H; subst. exists [], (c :: t). auto.
    + destruct (IH _ _ H) as (pre & post & -> & Hm).
      exists (c :: pre), post. rewrite after_cons. auto.
Qed.

Lemma search_from_complete r pre : forall pv post,
  is_Some (match_at r (after pv pre) post) ->
  is_Some (search_from r pv (pre ++ post)).
Proof.
  induction pre as [|c pre IH]; intros pv post H.
  - cbn [app]. rewrite after_nil in H.
    destruct post; cbn [search_from]; destruct H as [m ->]; eauto.
  - cbn [app search_from].
    destruct (match_at r pv (c :: pre ++ post)); [eauto|].
    apply IH. rewrite after_cons in H. assumption.
Qed.





Lemma after_None u : after None u = last u.
Proof. unfold after. destruct (last u); reflexivity. Qed.






Lemma rmatch_seq {A} a b (k : mstate -> option A) st :
  rmatch (a +> b) k st = rmatch a (rmatch b k) st.
Proof. reflexivity. Qed.




Lemma group_head n tok pv s cs : group n (MState pv s ((n, tok) :: cs)) = tok.
Proof. unfold group. cbn. rewrite Nat.eqb_refl. reflexivity. Qed.

Lemma consumed_rest st st' u : rest st = u ++ rest st' -> consumed st st' = u.
Proof.
  intros H. unfold consumed. rewrite H, length_app.
  replace (length u + length (rest st') - length (rest st'))%nat with (length u) by lia.
  apply take_app_length.
Qed.

Lemma matches_lazy_plus_inv p st st' :
  matches (LazyPlus p) st st' ->
  exists u, u <> [] /\ rest st = u ++ rest st' /\ forallb p u = true
            /\ caps st' = caps st.
Proof.
  unfold LazyPlus. intros H. apply matches_seq_inv in H as (st2 & H1 & H2).
  apply matches_chr_inv in H1 as (c & Hc & Hr & _ & Hcs).
  apply matches_lazy_inv in H2 as (u & Hr2 & Hu & _ & Hcs2).
  exists (c :: u). rewrite Hr, Hr2, Hcs2, Hcs. cbn [forallb]. rewrite Hc, Hu.
  repeat split; auto; discriminate.
Qed.

Lemma matches_reads_only q r st st' :
  reads_only q r -> matches r st st' ->
  exists u, rest st = u ++ rest st' /\ forallb q u = true.
Proof.
  intros Hq Hm. induction Hm; cbn [reads_only] in Hq; cbn [rest].
  - exists []; auto.
  - exists [c]. cbn. rewrite (Hq c H). auto.
  - destruct Hq as [Ha Hb].
    destruct (IHHm1 Ha) as (u & Hu & Fu). destruct (IHHm2 Hb) as (v & Hv & Fv).
    exists (u ++ v). rewrite Hu, Hv, <- app_assoc, forallb_app, Fu, Fv. auto.
  - apply IHHm, Hq.
  - apply IHHm, Hq.
  - apply IHHm, Hq.
  - exists []; auto.
  - exists []; auto.
  - destruct (IHHm Hq) as (u & Hu & Fu). cbn [rest] in Hu.
    exists (c :: u). cbn. rewrite Hu, (Hq c H), Fu. auto.
  - exists []; auto.
  - destruct (IHHm Hq) as (u & Hu & Fu). cbn [rest] in Hu.
    exists (c :: u). cbn. rewrite Hu, (Hq c H), Fu. auto.
  - apply IHHm, Hq.
  - exists []; auto.
  - exists []; auto.
Qed.


Lemma group_caps n st st' : caps st' = caps st -> group n st' = group n st.
Proof. unfold group. intros ->. reflexivity. Qed.





Lemma matches_plus_inv p st st' :
  matches (Plus p) st st' ->
  exists u, u <> [] /\ rest st = u ++ rest st' /\ forallb p u = true
            /\ caps st' = caps st.
Proof.
  unfold Plus. intros H. apply matches_seq_inv in H as (st2 & H1 & H2).
  apply matches_chr_inv in H1 as (c & Hc & Hr & _ & Hcs).
  apply matches_star_inv in H2 as (u & Hr2 & Hu & _ & Hcs2).
  exists (c :: u). rewrite Hr, Hr2, Hcs2, Hcs. cbn [forallb]. rewrite Hc, Hu.
  repeat split; auto; discriminate.
Qed.





Lemma findall_sound r s : forall pv skip m,
  m ∈ findall_from r pv s skip ->
  exists pre post, s = pre ++ post /\ match_at r (after pv pre) post = Some m.
Proof.
  induction s as [|c t IH]; intros pv skip m Hin.
  - destruct skip as [|n]; cbn in Hin.
    + destruct (match_at r pv []) as [m0|] eqn:E.
      * apply list_elem_of_singleton in Hin. subst m0. exists [], []. auto.
      * inversion Hin.
    + inversion Hin.
  - destruct skip as [|n]; cbn [findall_from] in Hin.
    + destruct (match_at r pv (c :: t)) as [m0|] eqn:E.
      * apply elem_of_cons in Hin as [-> | Hin].
        -- exists [], (c :: t). auto.
        -- destruct (IH _ _ _ Hin) as (pre & post & -> & Hm).
           exists (c :: pre), post. rewrite after_cons. auto.
      * destruct (IH _ _ _ Hin) as (pre & post & -> & Hm).
        exists (c :: pre), post. rewrite after_cons. auto.
    + destruct (IH _ _ _ Hin) as (pre & post & -> & Hm).
      exists (c :: pre), post. rewrite after_cons. auto.
Qed.

Section FindallCover.
Variable r : regex.
Variable D : mstate -> mstate -> Prop.
Hypothesis D_refl : forall m, D m m.
Hypothesis D_overlap : forall pv pv' s m0 pre post m,
  match_at r pv s = Some m0 -> s = pre ++ post ->
  (length pre < length s - length (rest m0))%nat ->
  match_at r pv' post = Some m -> D m m0.

End FindallCover.

End ReFacts.

(** ** The sort is a stable sort *)

Module SortFacts.

Import PySort.

Section Order.
Context {A : Type} (ltb : A -> A -> bool).

(** [ltb] is the strict part of a total preorder. *)
Hypothesis ltb_asym : forall x y, ltb x y = true -> ltb y x = false.
Hypothesis ltb_trans_neg :
  forall x y z, ltb y x = false -> ltb z y = false -> ltb z x = false.

Lemma insert_perm x l : Permutation (insert ltb x l) (x :: l).
Proof.
  induction l as [|y t IH]; cbn; [reflexivity|].
  destruct (ltb y x); [|reflexivity].
  rewrite IH. apply perm_swap.
Qed.

Lemma sorted_perm l : Permutation (sorted ltb l) l.
Proof.
  induction l as [|x t IH]; cbn; [reflexivity|].
  rewrite insert_perm, IH. reflexivity.
Qed.

Lemma sorted_reverse_perm l : Permutation (sorted_reverse ltb l) l.
Proof.
  unfold sorted_reverse.
  rewrite <- Permutation_rev, sorted_perm, <- Permutation_rev. reflexivity.
Qed.

Lemma insert_ascending x l :
  StronglySorted (ascending ltb) l -> StronglySorted (ascending ltb) (insert ltb x l).
Proof.
  induction 1 as [|y t Ht IH Hy]; cbn.
  - constructor; constructor.
  - destruct (ltb y x) eqn:E.
    + constructor; [assumption|].
      eapply Permutation_Forall; [symmetry; apply insert_perm|].
      constructor; [|assumption].
      unfold ascending. apply ltb_asym. assumption.
    + constructor; [constructor; assumption|].
      constructor; [exact E|].
      eapply Forall_impl; [eassumption|].
      intros z Hz. unfold ascending in *. cbn.
      eapply ltb_trans_neg; eassumption.
Qed.

Lemma sorted_ascending l : StronglySorted (ascending ltb) (sorted ltb l).
Proof.
  induction l as [|x t IH]; cbn; [constructor|].
  apply insert_ascending. assumption.
Qed.

Lemma StronglySorted_rev (R : A -> A -> Prop) l :
  StronglySorted R l -> StronglySorted (fun x y => R y x) (rev l).
Proof.
  induction 1 as [|x t Ht IH Hx]; cbn; [constructor|].
  apply StronglySorted_app_2.
  - intros a b Ha Hb. apply list_elem_of_singleton in Hb. subst b.
    rewrite Forall_forall in Hx. apply Hx.
    apply list_elem_of_In, in_rev, list_elem_of_In. assumption.
  - assumption.
  - constructor; constructor.
Qed.

Lemma sorted_reverse_descending l :
  StronglySorted (descending ltb) (sorted_reverse ltb l).
Proof.
  unfold sorted_reverse.
  apply (StronglySorted_rev (ascending ltb)). apply sorted_ascending.
Qed.

(** Stability: the elements of a class of mutually equal elements keep
    their input order. *)
Section Stable.
Variable p : A -> bool.
Hypothesis p_class : forall x y, p x = true -> p y = true -> ltb x y = false.

Lemma insert_filter x l :
  List.filter p (insert ltb x l) = List.filter p (x :: l).
Proof.
  induction l as [|y t IH]; cbn; [reflexivity|].
  destruct (ltb y x) eqn:E; [|reflexivity].
  cbn [List.filter]. rewrite IH. cbn [List.filter].
  destruct (p x) eqn:Hx; destruct (p y) eqn:Hy; try reflexivity.
  rewrite (p_class y x Hy Hx) in E. discriminate.
Qed.

Lemma sorted_filter l : List.filter p (sorted ltb l) = List.filter p l.
Proof.
  induction l as [|x t IH]; cbn [sorted]; [reflexivity|].
  rewrite insert_filter. cbn [List.filter]. rewrite IH. reflexivity.
Qed.

Lemma filter_rev_list (l : list A) : List.filter p (rev l) = rev (List.filter p l).
Proof.
  induction l as [|x t IH]; cbn; [reflexivity|].
  rewrite List.filter_app, IH. cbn. destruct (p x); cbn.
  - reflexivity.
  - rewrite app_nil_r. reflexivity.
Qed.

Lemma sorted_reverse_filter l :
  List.filter p (sorted_reverse ltb l) = List.filter p l.
Proof.
  unfold sorted_reverse.
  rewrite filter_rev_list, sorted_filter, filter_rev_list, rev_involutive.
  reflexivity.
Qed.
End Stable.
End Order.

Section Keys.
Context {A B : Type} (key : A -> B) (ltb : B -> B -> bool).

Lemma insert_map x l :
  map key (insert (fun a b => ltb (key a) (key b)) x l)
  = insert ltb (key x) (map key l).
Proof.
  induction l as [|y t IH]; cbn; [reflexivity|].
  destruct (ltb (key y) (key x)); cbn; [rewrite IH|]; reflexivity.
Qed.

Lemma sorted_map l :
  map key (sorted (fun a b => ltb (key a) (key b)) l) = sorted ltb (map key l).
Proof.
  induction l as [|x t IH]; cbn; [reflexivity|].
  rewrite insert_map, IH. reflexivity.
Qed.

Lemma sorted_reverse_map l :
  map key (sorted_reverse (fun a b => ltb (key a) (key b)) l)
  = sorted_reverse ltb (map key l).
Proof.
  unfold sorted_reverse. rewrite map_rev, sorted_map, map_rev. reflexivity.
Qed.
End Keys.

Lemma StronglySorted_weaken {A} (R S : A -> A -> Prop) l :
  (forall x y, R x y -> S x y) -> StronglySorted R l -> StronglySorted S l.
Proof.
  intros HRS. induction 1 as [|x t Ht IH Hx]; constructor; [assumption|].
  eapply Forall_impl; [eassumption|]. intros y. apply HRS.
Qed.

End SortFacts.

(** ** The fallback scorer *)

Module FallbackSpec.

Import Float PyStr FloatText Re LLMMatcher FloatFacts.

Lemma lower_char_idemp (c : N) : lower_char (lower_char c) = lower_char c.
Proof.
  unfold lower_char. destruct (is_upper c) eqn:Hu; [|rewrite Hu; reflexivity].
  unfold is_upper in *.
  destruct (65 <=? c + 32)%N eqn:H1; destruct (c + 32 <=? 90)%N eqn:H2;
    cbn; try reflexivity.
  apply andb_prop in Hu as [Ha Hb].
  apply N.leb_le in Ha, Hb, H2. lia.
Qed.





Lemma fallback_score_bounds (m n : nat) :
  (m <= n)%nat -> (1 <= fallback_score m n /\ fallback_score m n <= 10)%Q.
Proof.
  intros Hmn. unfold fallback_score. destruct (Nat.ltb_spec 0 n) as [Hn|Hn].
  - apply score_of_bounds; lia.
  - split; discriminate.
Qed.

Lemma fallback_score_mono (m1 m2 n : nat) :
  (m1 <= m2)%nat -> (fallback_score m1 n <= fallback_score m2 n)%Q.
Proof.
  intros Hm. unfold fallback_score. destruct (Nat.ltb_spec 0 n) as [Hn|Hn].
  - apply score_of_mono; lia.
  - apply Qle_refl.
Qed.

Lemma matched_le_required (resume : resume_data) (job : job_data) :
  (size (candidate_set resume ∩ required_set job) <= size (required_set job))%nat.
Proof.
  apply subseteq_size. intros x Hx. apply elem_of_intersection in Hx. tauto.
Qed.








(** C7.  The fallback scorer's match_score lies in [1.0, 10.0] for all
    candidate and required skills, and for a fixed job it does not
    decrease when the number of candidate skills among the required ones
    grows. *)
Theorem fallback_score_monotone_bounded (r1 r2 : resume_data) (job : job_data) :
  (fle (Fin 1) (match_score (fallback_matching r1 job))
   /\ fle (match_score (fallback_matching r1 job)) (Fin 10))
  /\ ((size (candidate_set r1 ∩ required_set job)
         <= size (candidate_set r2 ∩ required_set job))%nat ->
      fle (match_score (fallback_matching r1 job))
          (match_score (fallback_matching r2 job))).
Proof.
  cbn [fallback_matching match_score]. unfold fle, fleb. split.
  - destruct (fallback_score_bounds _ _ (matched_le_required r1 job)) as [H1 H2].
    split; apply Qle_bool_iff; assumption.
  - intros H. apply Qle_bool_iff. apply fallback_score_mono. assumption.
Qed.

Lemma fallback_score_monotone_bounded_witness :
  (size (candidate_set no_resume ∩ required_set backend_job)
     <= size (candidate_set john_doe ∩ required_set backend_job))%nat
  /\ fle (match_score (fallback_matching no_resume backend_job))
         (match_score (fallback_matching john_doe backend_job)).
Proof.
  assert (H : (size (candidate_set no_resume ∩ required_set backend_job)
                 <= size (candidate_set john_doe ∩ required_set backend_job))%nat).
  { vm_compute. lia. }
  split; [exact H|].
  apply (proj2 (fallback_score_monotone_bounded no_resume john_doe backend_job)).
  exact H.
Defined.



End FallbackSpec.

(** ** The reply parser *)

Module ParserSpec.

Import Float PyStr FloatText Re LLMMatcher FloatFacts ReFacts.
Local Open Scope re_scope.



Lemma occurs_i_length h s : occurs_i h s -> (length h <= length s)%nat.
Proof.
  intros (pre & u & post & -> & Hl).
  apply (f_equal (@length N)) in Hl. unfold lower in Hl.
  rewrite !length_map in Hl. rewrite !length_app. lia.
Qed.

Lemma Qle_bool_false (a b : Q) : Qle_bool a b = false -> (b < a)%Q.
Proof.
  intros H. apply Qnot_le_lt. intros Hle. apply Qle_bool_iff in Hle. congruence.
Qed.

Lemma clamp_score_cases (x : float) :
  (clamp_score x = Fin 1 /\ fle x (Fin 1))
  \/ (clamp_score x = Fin 10 /\ fle (Fin 10) x)
  \/ (clamp_score x = x /\ fle (Fin 1) x /\ fle x (Fin 10)).
Proof.
  unfold clamp_score, py_min, py_max, fltb, fle.
  destruct x as [q|]; cbn [fleb].
  - destruct (Qle_bool q 1) eqn:H1; cbn [negb fleb].
    + left. split; reflexivity.
    + destruct (Qle_bool 10 q) eqn:H2; cbn [negb].
      * right; left. split; reflexivity.
      * right; right. split; [reflexivity|].
        apply Qle_bool_false in H1, H2.
        split; apply Qle_bool_iff, Qlt_le_weak; assumption.
  - right; left. split; reflexivity.
Qed.

Lemma clamp_score_bounds (x : float) :
  fle (Fin 1) (clamp_score x) /\ fle (clamp_score x) (Fin 10).
Proof.
  destruct (clamp_score_cases x) as [[-> _]|[[-> _]|[-> H]]];
    [split; reflexivity|split; reflexivity|exact H].
Qed.









Lemma recommendation_re_sound pv s m :
  match_at recommendation_re pv s = Some m ->
  recommendation_place s (group 1 m).
Proof.
  unfold match_at, recommendation_re. intros H.
  rewrite rmatch_seq in H. apply rmatch_sound in H as (st1 & H1 & H).
  rewrite rmatch_seq in H. apply rmatch_sound in H as (st2 & H2 & H).
  rewrite rmatch_seq in H. apply rmatch_sound in H as (st3 & H3 & H).
  rewrite rmatch_seq in H. apply rmatch_sound in H as (st4 & H4 & H).
  apply rmatch_sound in H as (st5 & H5 & H). injection H as <-.
  apply matches_word_i_inv in H1 as (h & Hr1 & Hl & _ & _).
  apply matches_star_inv in H3 as (ws & Hr3 & Hws & _ & _).
  apply matches_group_inv in H4 as (st' & H4 & ->).
  apply matches_lazy_plus_inv in H4 as (line & Hne & Hr4 & Hline & _).
  rewrite (consumed_rest _ _ _ Hr4) in H5.
  assert (Hsep : exists sep, rest st1 = sep ++ rest st2 /\ (sep = [] \/ sep = [58%N])).
  { apply matches_opt_inv in H2 as [H2| ->].
    - apply matches_chr_inv in H2 as (c & Hc & Hr2 & _).
      unfold is_char in Hc. apply N.eqb_eq in Hc. subst c.
      exists [58%N]. rewrite Hr2. auto.
    - exists []. auto. }
  destruct Hsep as (sep & Hr2 & Hsep).
  assert (Hend : caps st5 = (1%nat, line) :: caps st'
                 /\ (rest st' = [] \/ exists post', rest st' = 10%N :: post')).
  { apply matches_alt_inv in H5 as [H5|H5].
    - apply matches_chr_inv in H5 as (c & Hc & Hr5 & _ & Hcs).
      unfold is_char in Hc. apply N.eqb_eq in Hc. subst c.
      cbn [rest caps] in *. split; [assumption|]. right. eauto.
    - apply matches_eos_inv in H5 as [-> He]. cbn [caps]. split; [reflexivity|].
      unfold at_end in He. cbn [rest] in He.
      destruct (rest st') as [|c [|? ?]]; [auto| |discriminate].
      apply N.eqb_eq in He. subst c. right. eauto. }
  destruct Hend as [Hcaps Hpost].
  assert (Hg : group 1 st5 = line).
  { unfold group. rewrite Hcaps. cbn. reflexivity. }
  rewrite Hg. cbn [rest] in *.
  exists h, sep, ws, (rest st'). rewrite Hr1, Hr2, Hr3, Hr4. repeat split; auto.
Qed.



Lemma strip_prefix_i_lower h : forall u post,
  lower u = lower h -> strip_prefix_i h (u ++ post) = Some post.
Proof.
  induction h as [|c h IH]; intros [|d u] post Hl; try discriminate.
  - reflexivity.
  - cbn in Hl. injection Hl as Hd Hl. cbn. rewrite Hd, N.eqb_refl.
    apply IH. assumption.
Qed.

Lemma occurs_i_after_heading h s : occurs_i h s -> is_Some (after_heading h s).
Proof.
  intros (pre & u & post & -> & Hl).
  induction pre as [|c pre IH]; cbn [app].
  - destruct (u ++ post) eqn:E; cbn [after_heading];
      rewrite <- E, (strip_prefix_i_lower h u post Hl); eauto.
  - cbn [after_heading]. destruct (strip_prefix_i h (c :: pre ++ u ++ post)); eauto.
Qed.






End ParserSpec.

(** ** The batch matcher *)

Module BatchSpec.

Import Float PyStr FloatText Re LLMMatcher FloatFacts SortFacts.

Lemma fleb_refl x : fleb x x = true.
Proof. destruct x; cbn; [apply Qle_bool_iff, Qle_refl|reflexivity]. Qed.

Lemma fleb_total x y : fleb x y = false -> fleb y x = true.
Proof.
  destruct x as [a|], y as [b|]; cbn; try congruence.
  intros H. apply Qle_bool_iff. apply Qlt_le_weak. apply Qnot_le_lt.
  intros Hle. apply Qle_bool_iff in Hle. congruence.
Qed.

Lemma fleb_trans x y z : fleb x y = true -> fleb y z = true -> fleb x z = true.
Proof.
  destruct x as [a|], y as [b|], z as [c|]; cbn; try congruence.
  rewrite !Qle_bool_iff. apply Qle_trans.
Qed.

Lemma key_ltb_asym x y : key_ltb x y = true -> key_ltb y x = false.
Proof.
  unfold key_ltb, fltb. intros H. apply negb_true_iff in H.
  apply fleb_total in H. rewrite H. reflexivity.
Qed.

Lemma key_ltb_trans_neg x y z :
  key_ltb y x = false -> key_ltb z y = false -> key_ltb z x = false.
Proof.
  unfold key_ltb, fltb. rewrite !negb_false_iff. intros H1 H2.
  eapply fleb_trans; eassumption.
Qed.

Lemma match_all_length llm i resumes job :
  length (match_all llm i resumes job) = length resumes.
Proof.
  revert i. induction resumes as [|r t IH]; intros i; cbn; [reflexivity|].
  rewrite IH. reflexivity.
Qed.

Lemma match_all_ids llm i resumes job :
  map ranked_resume_id (match_all llm i resumes job) = map resume_id resumes.
Proof.
  revert i. induction resumes as [|r t IH]; intros i; cbn; [reflexivity|].
  rewrite IH. reflexivity.
Qed.

(** C6.  For every job and every ordered collection of resumes the batch
    matcher returns one result per resume, sorted in non-increasing order
    of match_score, and results with equal match_score keep the relative
    order of their resumes (the sort is stable); per-resume scores
    [6.4, 8.0, 3.0] come out in the order [8.0, 6.4, 3.0]. *)
Theorem batch_sorted_stable
    (llm : nat -> resume_data -> job_data -> option (list N))
    (resumes : list resume_data) (job : job_data) :
  let per_resume := match_all llm 0 resumes job in
  let out := batch_match_resumes llm resumes job in
  length out = length resumes
  /\ map ranked_resume_id per_resume = map resume_id resumes
  /\ Permutation out per_resume
  /\ StronglySorted (fun x y => fle (score_key y) (score_key x)) out
  /\ (forall v,
        List.filter (fun x => feqb (score_key x) v) out
        = List.filter (fun x => feqb (score_key x) v) per_resume)
  /\ (map score_key per_resume = [Fin (RN (32 # 5)); Fin 8; Fin 3] ->
      map score_key out = [Fin 8; Fin (RN (32 # 5)); Fin 3]).
Proof.
  cbn zeta. unfold batch_match_resumes.
  set (per := match_all llm 0 resumes job).
  assert (Hperm : Permutation (PySort.sorted_reverse key_ltb per) per)
    by apply sorted_reverse_perm.
  split.
  { rewrite (Permutation_length Hperm). apply match_all_length. }
  split; [apply match_all_ids|].
  split; [assumption|].
  split.
  { eapply StronglySorted_weaken;
      [|apply (sorted_reverse_descending key_ltb key_ltb_asym key_ltb_trans_neg)].
    intros x y H. unfold PySort.descending, key_ltb, fltb in H.
    apply negb_false_iff in H. exact H. }
  split.
  { intros v. apply sorted_reverse_filter.
    intros x y Hx Hy. unfold feqb in Hx, Hy.
    apply andb_prop in Hx as [Hx1 Hx2]. apply andb_prop in Hy as [Hy1 Hy2].
    unfold key_ltb, fltb. apply negb_false_iff.
    eapply fleb_trans; eassumption. }
  intros Hk.
  change key_ltb with (fun a b => fltb (score_key a) (score_key b)).
  rewrite (sorted_reverse_map score_key fltb), Hk.
  vm_compute. reflexivity.
Qed.

Lemma batch_sorted_stable_witness :
  map score_key (match_all scripted_llm 0 [no_resume; john_doe; no_resume] no_job)
    = [Fin (RN (32 # 5)); Fin 8; Fin 3]
  /\ map score_key
       (batch_match_resumes scripted_llm [no_resume; john_doe; no_resume] no_job)
     = [Fin 8; Fin (RN (32 # 5)); Fin 3]
  /\ map ranked_resume_id
       (batch_match_resumes scripted_llm [no_resume; john_doe; no_resume] no_job)
     = [Some 1%Z; None; None].
Proof.
  assert (H : map score_key
                (match_all scripted_llm 0 [no_resume; john_doe; no_resume] no_job)
              = [Fin (RN (32 # 5)); Fin 8; Fin 3]).
  { vm_compute. reflexivity. }
  split; [exact H|]. split.
  - apply (batch_sorted_stable scripted_llm [no_resume; john_doe; no_resume] no_job).
    exact H.
  - vm_compute. reflexivity.
Defined.

End BatchSpec.

(** ** Skill extraction and the experience estimate *)

Module ResumeSpec.

Import PyStr Re ResumeParser ReFacts SortFacts.
Local Open Scope re_scope.

Lemma skill_search_iff (w s : list N) :
  is_Some (search (WordB +> word w +> WordB) s) <-> occurs_bounded w s.
Proof.
  split.
  - intros [m Hm]. unfold search in Hm.
    apply search_from_sound in Hm as (pre & post & -> & Hm).
    unfold match_at in Hm. apply rmatch_sound in Hm as (st' & Hm & _).
    apply matches_seq_inv in Hm as (st1 & H1 & Hm).
    apply matches_seq_inv in Hm as (st2 & H2 & H3).
    apply matches_wordb_inv in H1 as [-> Hb1].
    apply matches_wordb_inv in H3 as [-> Hb2].
    apply matches_word_inv in H2 as (Hr & Hp & _).
    cbn [rest prev] in *. subst post.
    exists pre, (rest st2). split; [reflexivity|].
    unfold at_boundary in Hb1, Hb2. cbn [prev rest] in Hb1.
    rewrite after_None in Hb1. rewrite Hp, <- after_app, after_None in Hb2.
    split; assumption.
  - intros (pre & post & -> & Hb1 & Hb2). unfold search.
    apply search_from_complete. unfold match_at.
    rewrite rmatch_seq.
    eapply rmatch_complete.
    { apply M_WordB. unfold at_boundary. cbn [prev rest].
      rewrite after_None. exact Hb1. }
    rewrite rmatch_seq.
    eapply rmatch_complete; [apply matches_word_intro|].
    eapply rmatch_complete; [|eauto].
    apply M_WordB. unfold at_boundary. cbn [prev rest].
    rewrite <- after_app, after_None. exact Hb2.
Qed.

(** The lexicographic order is a total order. *)
Lemma str_leb_refl a : str_leb a a = true.
Proof.
  induction a as [|x a IH]; cbn; [reflexivity|].
  rewrite N.ltb_irrefl. assumption.
Qed.






Lemma vocabulary_lower : Forall (fun skill => lower skill = skill) common_skills.
Proof. unfold common_skills. repeat (constructor; [vm_compute; reflexivity|]). constructor. Qed.

















End ResumeSpec.

(** ** Trimming *)

Module StripFacts.

Import PyStr.

Lemma lstrip_split (s : list N) :
  exists u, s = u ++ lstrip s /\ forallb is_space u = true.
Proof.
  induction s as [|c t IH]; [exists []; auto|].
  cbn [lstrip]. destruct (is_space c) eqn:Hc.
  - destruct IH as (u & Hu & Hs). exists (c :: u). split.
    + cbn. congruence.
    + cbn. rewrite Hc. assumption.
  - exists []. auto.
Qed.

Lemma lstrip_head (s : list N) (c : N) :
  head (lstrip s) = Some c -> is_space c = false.
Proof.
  induction s as [|d t IH]; [discriminate|].
  cbn [lstrip]. destruct (is_space d) eqn:Hd; [assumption|].
  cbn. congruence.
Qed.

Lemma lstrip_fixed (s : list N) :
  (forall c, head s = Some c -> is_space c = false) -> lstrip s = s.
Proof.
  destruct s as [|d t]; [reflexivity|]. intros H. cbn [lstrip].
  rewrite (H d) by reflexivity. reflexivity.
Qed.

Lemma lstrip_idemp (s : list N) : lstrip (lstrip s) = lstrip s.
Proof. apply lstrip_fixed. apply lstrip_head. Qed.

Lemma rstrip_split (s : list N) :
  exists u, s = rstrip s ++ u /\ forallb is_space u = true.
Proof.
  unfold rstrip. destruct (lstrip_split (rev s)) as (u & Hu & Hs).
  exists (rev u). split.
  - rewrite <- rev_app_distr, <- Hu, rev_involutive. reflexivity.
  - rewrite forallb_forall in *. intros x Hx. apply Hs.
    apply in_rev. assumption.
Qed.

Lemma rstrip_idemp (s : list N) : rstrip (rstrip s) = rstrip s.
Proof. unfold rstrip. rewrite rev_involutive, lstrip_idemp. reflexivity. Qed.

Lemma rstrip_head (s : list N) (c : N) :
  head (rstrip s) = Some c -> head s = Some c.
Proof.
  destruct (rstrip_split s) as (u & Hu & _).
  destruct (rstrip s) as [|d t]; [discriminate|].
  rewrite Hu. cbn. auto.
Qed.

Lemma lstrip_strip (s : list N) : lstrip (strip s) = strip s.
Proof.
  unfold strip. apply lstrip_fixed. intros c Hc.
  apply rstrip_head in Hc. apply lstrip_head in Hc. assumption.
Qed.

Lemma strip_idemp (s : list N) : strip (strip s) = strip s.
Proof.
  unfold strip at 1. rewrite lstrip_strip. unfold strip.
  apply rstrip_idemp.
Qed.

Lemma strip_split (s : list N) :
  exists u v, s = u ++ strip s ++ v
    /\ forallb is_space u = true /\ forallb is_space v = true.
Proof.
  destruct (lstrip_split s) as (u & Hu & Hsu).
  destruct (rstrip_split (lstrip s)) as (v & Hv & Hsv).
  exists u, v. unfold strip. rewrite <- Hv. auto.
Qed.

Lemma strip_forallb (p : N -> bool) (s : list N) :
  forallb p s = true -> forallb p (strip s) = true.
Proof.
  destruct (strip_split s) as (u & v & Hs & _). intros H.
  rewrite Hs in H. rewrite !forallb_app in H.
  apply andb_prop in H as [_ H]. apply andb_prop in H as [H _]. assumption.
Qed.

Lemma strip_length (s : list N) : (length (strip s) <= length s)%nat.
Proof.
  destruct (strip_split s) as (u & v & Hs & _).
  rewrite Hs at 2. rewrite !length_app. lia.
Qed.

Lemma strip_same_length (s : list N) :
  length (strip s) = length s -> strip s = s.
Proof.
  destruct (strip_split s) as (u & v & Hs & _). intros H.
  rewrite Hs in H at 2. rewrite !length_app in H.
  destruct u; [|cbn in H; lia]. destruct v; [|cbn in H; lia].
  rewrite app_nil_r in Hs. symmetry. exact Hs.
Qed.

Lemma last_rev (s : list N) : last (rev s) = head s.
Proof. destruct s as [|c t]; [reflexivity|]. cbn [rev]. apply last_snoc. Qed.


Lemma trimmed_intro (s : list N) :
  (forall c, head s = Some c -> is_space c = false) ->
  (forall c, last s = Some c -> is_space c = false) ->
  strip s = s.
Proof.
  intros Hh Hl. unfold strip. rewrite (lstrip_fixed s Hh).
  unfold rstrip. rewrite lstrip_fixed; [apply rev_involutive|].
  intros c Hc. apply Hl. rewrite <- (rev_involutive s), last_rev. assumption.
Qed.

End StripFacts.

(** ** Every result of the pipeline *)

Module PipelineSpec.

Import Float PyStr FloatText Re LLMMatcher FloatFacts ReFacts SortFacts.
Import FallbackSpec ParserSpec BatchSpec StripFacts.

Lemma section_items_trimmed (text : list N) :
  (length (section_items text) <= 10)%nat
  /\ Forall (fun x => x <> [] /\ strip x = x) (section_items text).
Proof.
  unfold section_items. split.
  - rewrite length_take. lia.
  - apply Forall_take. rewrite Forall_forall. intros x Hx.
    apply list_elem_of_fmap in Hx as (item & -> & Hi).
    apply list_elem_of_filter in Hi as [Hne _]. split.
    + intros He. rewrite He in Hne. exact Hne.
    + apply strip_idemp.
Qed.

(** X2.  The reply parser returns at most ten matched skills and at most ten
    missing skills, and every item of either list is non-empty and has no
    leading or trailing white space. *)
Theorem parsed_skill_lists (reply : list N) (resume : resume_data) (job : job_data) :
  let m := parse_llm_response reply resume job in
  ((length (matched_skills m) <= 10)%nat
   /\ Forall (fun x => x <> [] /\ strip x = x) (matched_skills m))
  /\ ((length (missing_skills m) <= 10)%nat
      /\ Forall (fun x => x <> [] /\ strip x = x) (missing_skills m)).
Proof.
  cbn. split.
  - destruct (search matched_re reply); [apply section_items_trimmed|].
    split; [cbn; lia|constructor].
  - destruct (search missing_re reply); [apply section_items_trimmed|].
    split; [cbn; lia|constructor].
Qed.

(** X3.  The justification and the recommendation the reply parser returns have
    no leading or trailing white space, and the recommendation contains no
    line break. *)
Theorem parsed_text_fields (reply : list N) (resume : resume_data) (job : job_data) :
  let m := parse_llm_response reply resume job in
  strip (justification m) = justification m
  /\ strip (recommendation m) = recommendation m
  /\ 10%N ∉ recommendation m.
Proof.
  cbn. split; [|split].
  - destruct (search justification_re reply); [apply strip_idemp|reflexivity].
  - destruct (search recommendation_re reply); [apply strip_idemp|reflexivity].
  - destruct (search recommendation_re reply) as [m|] eqn:Hs.
    + apply search_from_sound in Hs as (pre & post & _ & Hm).
      apply recommendation_re_sound in Hm
        as (h & sep & ws & p & _ & _ & _ & _ & _ & Hdot & _).
      apply (strip_forallb dot) in Hdot. intros Hin.
      rewrite forallb_forall in Hdot.
      apply list_elem_of_In in Hin. apply Hdot in Hin. discriminate.
    + intros Hin. vm_compute in Hin.
      repeat (apply elem_of_cons in Hin as [Hin|Hin]; [discriminate|]).
      inversion Hin.
Qed.

Lemma parsed_score_bounds (reply : list N) (resume : resume_data) (job : job_data) :
  fle (Fin 1) (match_score (parse_llm_response reply resume job))
  /\ fle (match_score (parse_llm_response reply resume job)) (Fin 10).
Proof.
  cbn. destruct (search score_re reply) as [m|]; [|split; reflexivity].
  destruct (py_float (group 1 m)); [|split; reflexivity].
  apply clamp_score_bounds.
Qed.

Lemma fallback_bounds (resume : resume_data) (job : job_data) :
  fle (Fin 1) (match_score (fallback_matching resume job))
  /\ fle (match_score (fallback_matching resume job)) (Fin 10).
Proof.
  cbn. unfold fle, fleb.
  destruct (fallback_score_bounds _ _ (matched_le_required resume job)) as [H1 H2].
  split; apply Qle_bool_iff; assumption.
Qed.

Lemma match_bounds llm (resume : resume_data) (job : job_data) :
  fle (Fin 1) (match_score (match_resume_to_job llm resume job))
  /\ fle (match_score (match_resume_to_job llm resume job)) (Fin 10).
Proof.
  unfold match_resume_to_job.
  destruct (llm resume job) as [[|c t]|];
    [apply fallback_bounds|apply parsed_score_bounds|apply fallback_bounds].
Qed.

Lemma match_all_elem llm job resumes : forall i x,
  x ∈ match_all llm i resumes job ->
  exists k resume,
    resumes !! k = Some resume
    /\ x = annotate resume (match_resume_to_job (llm (i + k)%nat) resume job).
Proof.
  induction resumes as [|r t IH]; intros i x Hx; [inversion Hx|].
  cbn in Hx. apply elem_of_cons in Hx as [->|Hx].
  - exists 0%nat, r. rewrite Nat.add_0_r. auto.
  - apply IH in Hx as (k & resume & Hk & ->).
    exists (S k), resume. split; [exact Hk|].
    replace (i + S k)%nat with (S i + k)%nat by lia. reflexivity.
Qed.

Lemma batch_elem llm job resumes x :
  x ∈ batch_match_resumes llm resumes job ->
  exists k resume,
    resumes !! k = Some resume
    /\ x = annotate resume (match_resume_to_job (llm k) resume job).
Proof.
  unfold batch_match_resumes. intros Hx.
  rewrite (sorted_reverse_perm key_ltb) in Hx.
  apply match_all_elem in Hx. exact Hx.
Qed.

(** X1.  Whatever the language model answers (a text, the empty text or nothing at
    all), the match_score that match_resume_to_job returns lies between 1.0
    and 10.0, and so does the score of every entry that batch_match_resumes
    returns. *)
Theorem every_score_on_the_scale llm batch_llm
    (resume : resume_data) (resumes : list resume_data) (job : job_data) :
  (fle (Fin 1) (match_score (match_resume_to_job llm resume job))
   /\ fle (match_score (match_resume_to_job llm resume job)) (Fin 10))
  /\ Forall (fun x => fle (Fin 1) (score_key x) /\ fle (score_key x) (Fin 10))
            (batch_match_resumes batch_llm resumes job).
Proof.
  split; [apply match_bounds|].
  apply Forall_forall. intros x Hx.
  apply batch_elem in Hx as (k & r & _ & ->).
  unfold score_key. cbn. apply match_bounds.
Qed.

(** X9.  Every entry batch_match_resumes returns is the match computed for one of
    the given resumes (at the call with that resume's position) together
    with the id, the candidate_name (or "Unknown") and the email of that same
    resume. *)
Theorem batch_keeps_identity llm (resumes : list resume_data) (job : job_data) :
  Forall (fun x => exists k resume,
            resumes !! k = Some resume
            /\ ranked_match x = match_resume_to_job (llm k) resume job
            /\ ranked_resume_id x = resume_id resume
            /\ ranked_candidate_name x
               = default (lit "Unknown") (resume_candidate_name resume)
            /\ ranked_email x = resume_email resume)
         (batch_match_resumes llm resumes job).
Proof.
  apply Forall_forall. intros x Hx.
  apply batch_elem in Hx as (k & resume & Hk & ->).
  exists k, resume. cbn. auto.
Qed.

End PipelineSpec.

(** ** The fallback scorer on whole skill sets *)

Module FallbackFacts.

Import Float PyStr FloatText Re LLMMatcher FloatFacts.
Import FallbackSpec StripFacts.










End FallbackFacts.

(** ** The printed fallback score *)

Module FallbackText.

Import Float PyStr FloatText Re LLMMatcher FloatFacts.
Import FallbackSpec StripFacts FallbackFacts.

Lemma repr_tenths_table :
  forallb (fun k =>
             let t := Z.of_nat k in
             bool_decide (repr_float (Fin (RN (inject_Z t / 10)))
                          = str_of_N (Z.to_N (t / 10)) ++ [46%N]
                              ++ str_of_N (Z.to_N (t mod 10))))
          (seq 10 91) = true.
Proof. vm_compute. reflexivity. Qed.

Lemma repr_tenths (t : Z) :
  10 <= t <= 100 ->
  repr_float (Fin (RN (inject_Z t / 10)))
  = str_of_N (Z.to_N (t / 10)) ++ [46%N] ++ str_of_N (Z.to_N (t mod 10)).
Proof.
  intros Ht. pose proof repr_tenths_table as H.
  rewrite forallb_forall in H.
  specialize (H (Z.to_nat t)). cbv zeta in H.
  rewrite Z2Nat.id in H by lia.
  apply bool_decide_eq_true_1 in H; [exact H|].
  apply in_seq. lia.
Qed.

Lemma round1_tenths (x : Q) :
  (1 <= x)%Q -> (x <= 10)%Q ->
  exists t, 10 <= t <= 100 /\ round1 x = RN (inject_Z t / 10).
Proof.
  intros H1 H2. exists (rhe (x * 10)). split; [|reflexivity].
  split.
  - rewrite <- (rhe_inject 10). apply rhe_mono.
    apply Qle_trans with (1 * 10)%Q; [discriminate|].
    apply Qmult_le_compat_r; [assumption|discriminate].
  - rewrite <- (rhe_inject 100). apply rhe_mono.
    apply Qle_trans with (10 * 10)%Q; [|discriminate].
    apply Qmult_le_compat_r; [assumption|discriminate].
Qed.

Lemma fallback_score_tenths (m n : nat) :
  (m <= n)%nat ->
  exists t, 10 <= t <= 100 /\ fallback_score m n = RN (inject_Z t / 10).
Proof.
  intros Hmn. unfold fallback_score. destruct (Nat.ltb_spec 0 n) as [Hn|Hn].
  - unfold score_of. apply round1_tenths; apply pre_score_bounds; lia.
  - exists 50. split; [lia|]. vm_compute. reflexivity.
Qed.

(** X8.  The fallback score is always the binary64 number nearest to t/10 for an
    integer t between 10 and 100, and overall_assessment prints it with
    exactly one decimal digit: "Automated Score: " followed by t div 10, a
    period, t mod 10 and "/10". *)
Theorem fallback_score_one_decimal (resume : resume_data) (job : job_data) :
  exists t : Z,
    10 <= t <= 100
    /\ match_score (fallback_matching resume job) = Fin (RN (inject_Z t / 10))
    /\ overall_assessment (fallback_matching resume job)
       = lit "Automated Score: " ++ str_of_N (Z.to_N (t / 10)) ++ lit "."
           ++ str_of_N (Z.to_N (t mod 10)) ++ lit "/10".
Proof.
  destruct (fallback_score_tenths _ _ (matched_le_required resume job))
    as (t & Ht & E).
  exists t. split; [exact Ht|].
  cbn [fallback_matching match_score overall_assessment].
  rewrite E. split; [reflexivity|].
  rewrite (repr_tenths t Ht). rewrite <- !app_assoc. reflexivity.
Qed.




End FallbackText.

(** ** The upload check and the suffix tests of the parser *)

Module UploadSpec.

Import PyStr Re ResumeParser App StripFacts FallbackSpec.

Lemma contains_true (c : N) (s : list N) : contains c s = true <-> c ∈ s.
Proof.
  unfold contains. rewrite existsb_exists. split.
  - intros (x & Hx & E). apply N.eqb_eq in E. subst x.
    apply list_elem_of_In. exact Hx.
  - intros H. exists c. split; [apply list_elem_of_In; exact H|apply N.eqb_refl].
Qed.

Lemma contains_false (c : N) (s : list N) : contains c s = false <-> c ∉ s.
Proof.
  rewrite <- contains_true. destruct (contains c s); split; intros H; congruence.
Qed.

Lemma contains_cons (c x : N) (s : list N) :
  contains c (x :: s) = (c =? x)%N || contains c s.
Proof. reflexivity. Qed.

Lemma contains_app (c : N) (a b : list N) :
  contains c (a ++ b) = contains c a || contains c b.
Proof. unfold contains. apply existsb_app. Qed.

Lemma rsplit_once_spec (sep : N) (s : list N) :
  (contains sep s = false /\ rsplit_once sep s = [s])
  \/ (exists a b, s = a ++ sep :: b /\ contains sep b = false
                  /\ rsplit_once sep s = [a; b]).
Proof.
  induction s as [|c t IH]; [left; auto|].
  cbn [rsplit_once]. destruct IH as [[Hc ->]|(a & b & -> & Hb & ->)].
  - destruct (N.eqb_spec c sep) as [->|Hne].
    + right. exists [], t. auto.
    + left. split; [|reflexivity]. rewrite contains_cons, Hc.
      destruct (N.eqb_spec sep c); [congruence|reflexivity].
  - right. exists (c :: a), b. auto.
Qed.

Lemma endswith_iff (s suffix : list N) :
  endswith s suffix = true <-> exists pre, s = pre ++ suffix.
Proof.
  unfold endswith, str_eqb. rewrite bool_decide_eq_true. split.
  - intros H. exists (take (length s - length suffix) s).
    rewrite <- H at 2. symmetry. apply take_drop.
  - intros (pre & ->). rewrite length_app.
    replace (length pre + length suffix - length suffix)%nat with (length pre) by lia.
    apply drop_app_length.
Qed.

Lemma last_separator (sep : N) (a : list N) : forall a' b b',
  a ++ sep :: b = a' ++ sep :: b' ->
  contains sep b = false -> contains sep b' = false -> a = a' /\ b = b'.
Proof.
  induction a as [|x a IH]; intros [|y a'] b b' E Hb Hb'; cbn in E.
  - injection E as <-. auto.
  - injection E as <- ->. rewrite contains_app, contains_cons in Hb.
    rewrite N.eqb_refl, orb_true_r in Hb. discriminate.
  - injection E as -> <-. rewrite contains_app, contains_cons in Hb'.
    rewrite N.eqb_refl, orb_true_r in Hb'. discriminate.
  - injection E as <- E. destruct (IH _ _ _ E Hb Hb') as [-> ->]. auto.
Qed.

Lemma lower_char_dot (c : N) : lower_char c = 46%N <-> c = 46%N.
Proof.
  unfold lower_char, is_upper. split.
  - destruct (65 <=? c)%N eqn:H1; destruct (c <=? 90)%N eqn:H2; cbn; try tauto.
    apply N.leb_le in H1. lia.
  - intros ->. reflexivity.
Qed.

Lemma contains_dot_lower (s : list N) : contains 46 (lower s) = contains 46 s.
Proof.
  induction s as [|c t IH]; [reflexivity|].
  change (lower (c :: t)) with (lower_char c :: lower t).
  rewrite !contains_cons, IH. f_equal.
  destruct (N.eqb_spec 46 (lower_char c)) as [E|E];
    destruct (N.eqb_spec 46 c) as [E'|E']; try reflexivity.
  - symmetry in E. apply (proj1 (lower_char_dot c)) in E. congruence.
  - subst c. exfalso. apply E. reflexivity.
Qed.

Lemma lower_app (a b : list N) : lower (a ++ b) = lower a ++ lower b.
Proof. apply map_app. Qed.

(** The extension test of [allowed_file] and the suffix tests of
    [parse_resume] accept the same names. *)
Lemma allowed_file_suffix (filename : list N) :
  allowed_file filename = true <->
  endswith (lower filename) (lit ".pdf") = true
  \/ endswith (lower filename) (lit ".docx") = true.
Proof.
  unfold allowed_file.
  destruct (rsplit_once_spec 46 filename) as [[Hc E]|(a & b & Hs & Hb & E)].
  - rewrite Hc. cbn [andb]. split; [discriminate|].
    assert (Hl : contains 46 (lower filename) = false)
      by (rewrite contains_dot_lower; exact Hc).
    intros [H|H]; apply endswith_iff in H as (pre & H); rewrite H in Hl;
      rewrite contains_app in Hl; cbn in Hl; rewrite orb_true_r in Hl;
      discriminate.
  - rewrite E. cbn [lookup list_lookup].
    assert (Hc : contains 46 filename = true).
    { rewrite Hs, contains_app, contains_cons. cbn. apply orb_true_r. }
    rewrite Hc. cbn [andb]. rewrite bool_decide_eq_true.
    assert (Hl : lower filename = lower a ++ 46%N :: lower b).
    { rewrite Hs, lower_app. reflexivity. }
    assert (Hlb : contains 46 (lower b) = false)
      by (rewrite contains_dot_lower; exact Hb).
    unfold ALLOWED_EXTENSIONS. rewrite !elem_of_cons. split.
    + intros [H|[H|H]]; [left|right|inversion H]; apply endswith_iff;
        exists (lower a); rewrite Hl, H; reflexivity.
    + intros [H|H]; apply endswith_iff in H as (pre & H); rewrite Hl in H;
        change (pre ++ lit ".pdf") with (pre ++ 46%N :: lit "pdf") in H;
        change (pre ++ lit ".docx") with (pre ++ 46%N :: lit "docx") in H;
        apply last_separator in H as [_ H]; try assumption; try reflexivity;
        auto.
Qed.

(** X22.  allowed_file accepts exactly the names of the form stem.extension where
    the extension contains no period and is, letter case ignored, "pdf" or
    "docx"; the stem may be empty or contain periods. *)
Theorem allowed_file_spec (filename : list N) :
  allowed_file filename = true <->
  exists stem extension,
    filename = stem ++ lit "." ++ extension
    /\ (46%N ∉ extension)
    /\ (lower extension = lit "pdf" \/ lower extension = lit "docx").
Proof.
  split.
  - intros H. unfold allowed_file in H. apply andb_prop in H as [Hc H].
    destruct (rsplit_once_spec 46 filename) as [[Hn _]|(a & b & Hs & Hb & E)];
      [congruence|].
    rewrite E in H. cbn [lookup list_lookup] in H.
    apply bool_decide_eq_true in H. unfold ALLOWED_EXTENSIONS in H.
    exists a, b. split; [exact Hs|]. split; [apply contains_false; exact Hb|].
    rewrite !elem_of_cons in H. destruct H as [H|[H|H]]; auto. inversion H.
  - intros (stem & ext & Hs & Hd & He). apply allowed_file_suffix.
    rewrite Hs, !lower_app.
    destruct He as [-> | ->]; [left|right]; apply endswith_iff;
      exists (lower stem); reflexivity.
Qed.

(** X23.  allowed_file rejects a name exactly when parse_resume, whatever the file
    holds, raises "Failed to parse resume: Unsupported file format. Only PDF
    and DOCX are supported." for it: the upload check and the parser's
    suffix tests accept the same names. *)
Theorem upload_check_matches_parser (io : file_readers) (filename : list N) :
  allowed_file filename = false <->
  parse_resume io filename
  = Raised (lit "Failed to parse resume: Unsupported file format. Only PDF and DOCX are supported.").
Proof.
  pose proof (allowed_file_suffix filename) as H.
  unfold parse_resume.
  destruct (endswith (lower filename) (lit ".pdf")) eqn:Hp.
  - assert (Ha : allowed_file filename = true) by (apply H; auto).
    rewrite Ha. split; [discriminate|]. intros E. exfalso.
    unfold extract_text_from_pdf in E.
    destruct (pdfplumber_pages io filename) as [pages|].
    + destruct (pdfplumber_loop pages []) as [text [|]]; [|discriminate].
      destruct (pypdf2_pages io filename) as [pages'|]; [|discriminate].
      destruct (pypdf2_loop pages' text); discriminate.
    + destruct (pypdf2_pages io filename) as [pages'|]; [|discriminate].
      destruct (pypdf2_loop pages' []); discriminate.
  - destruct (endswith (lower filename) (lit ".docx")) eqn:Hd.
    + assert (Ha : allowed_file filename = true) by (apply H; auto).
      rewrite Ha. split; [discriminate|]. intros E. exfalso.
      unfold extract_text_from_docx in E.
      destruct (docx_paragraphs io filename); discriminate.
    + split; [reflexivity|]. intros _.
      destruct (allowed_file filename); [|reflexivity].
      destruct H as [H _]. destruct (H eq_refl); discriminate.
Qed.

End UploadSpec.

(** ** Captured groups, split pieces and the two section extractors *)

Module CaptureFacts.

Import PyStr Re ReFacts.

(** What a match captures is part of what it reads. *)
Lemma matches_captures r st st' :
  matches r st st' ->
  exists new,
    caps st' = new ++ caps st
    /\ forall n u, (n, u) ∈ new -> exists a b, rest st = a ++ u ++ b.
Proof.
  induction 1;
    try (exists []; split; [reflexivity|]; intros n0 u0 Hin; inversion Hin; fail).
  - destruct IHmatches1 as (new1 & E1 & H1). destruct IHmatches2 as (new2 & E2 & H2).
    exists (new2 ++ new1). split; [rewrite E2, E1, app_assoc; reflexivity|].
    intros n u Hin. apply elem_of_app in Hin as [Hin|Hin].
    + destruct (H2 n u Hin) as (a' & b' & E).
      destruct (matches_rest _ _ _ H) as (w & Hw & _).
      exists (w ++ a'), b'. rewrite Hw, E, <- app_assoc. reflexivity.
    + apply (H1 n u Hin).
  - exact IHmatches.
  - exact IHmatches.
  - exact IHmatches.
  - destruct IHmatches as (new & E & Hn). exists new. split; [exact E|].
    intros n u Hin. destruct (Hn n u Hin) as (a & b & Ea). cbn [rest] in *.
    exists (c :: a), b. rewrite Ea. reflexivity.
  - destruct IHmatches as (new & E & Hn). exists new. split; [exact E|].
    intros n u Hin. destruct (Hn n u Hin) as (a & b & Ea). cbn [rest] in *.
    exists (c :: a), b. rewrite Ea. reflexivity.
  - destruct IHmatches as (new & E & Hn).
    exists ((n, consumed st st') :: new). cbn [caps]. split; [rewrite E; reflexivity|].
    intros k u Hin. apply elem_of_cons in Hin as [[= -> ->]|Hin].
    + destruct (matches_rest _ _ _ H) as (w & Hw & _).
      exists [], (rest st'). rewrite (consumed_rest _ _ _ Hw). exact Hw.
    + apply (Hn k u Hin).
Qed.

Lemma group_infix r pv s m n :
  match_at r pv s = Some m -> exists a b, s = a ++ group n m ++ b.
Proof.
  unfold match_at. intros H. apply rmatch_sound in H as (st' & H & E).
  injection E as <-.
  apply matches_captures in H as (new & E & Hn). cbn [caps rest] in *.
  rewrite app_nil_r in E. unfold group. rewrite E.
  destruct (find (fun c => Nat.eqb (fst c) n) new) as [[k u]|] eqn:Hf.
  - apply find_some in Hf as [Hin _]. apply list_elem_of_In in Hin.
    apply (Hn k u Hin).
  - exists [], s. reflexivity.
Qed.

Lemma search_group_infix r s m n :
  search r s = Some m -> exists a b, s = a ++ group n m ++ b.
Proof.
  unfold search. intros H. apply search_from_sound in H as (pre & post & -> & H).
  apply (group_infix _ _ _ _ n) in H as (a & b & ->).
  exists (pre ++ a), b. rewrite <- app_assoc. reflexivity.
Qed.

Lemma findall_group_infix r s m n :
  m ∈ findall r s -> exists a b, s = a ++ group n m ++ b.
Proof.
  unfold findall. intros H. apply findall_sound in H as (pre & post & -> & H).
  apply (group_infix _ _ _ _ n) in H as (a & b & ->).
  exists (pre ++ a), b. rewrite <- app_assoc. reflexivity.
Qed.

Lemma elem_of_rev (c : N) (l : list N) : c ∈ rev l -> c ∈ l.
Proof.
  intros H. apply list_elem_of_In. apply in_rev. apply list_elem_of_In. exact H.
Qed.

(** The pieces of a split are made of characters of the text. *)
Lemma split_from_chars r s : forall pv skip cur piece c,
  piece ∈ split_from r pv s skip cur -> c ∈ piece -> c ∈ cur \/ c ∈ s.
Proof.
  induction s as [|x t IH]; intros pv skip cur piece c Hp Hc; cbn [split_from] in Hp.
  - apply list_elem_of_singleton in Hp. subst piece.
    left. apply elem_of_rev in Hc. exact Hc.
  - assert (Hstep : forall pv' skip' cur',
              piece ∈ split_from r pv' t skip' cur' ->
              (forall y, y ∈ cur' -> y ∈ cur \/ y ∈ x :: t) ->
              c ∈ cur \/ c ∈ x :: t).
    { intros pv' skip' cur' Hp' Hcur.
      destruct (IH _ _ _ _ _ Hp' Hc) as [H|H]; [apply Hcur; exact H|].
      right. right. exact H. }
    assert (Hsame : forall y, y ∈ cur -> y ∈ cur \/ y ∈ x :: t) by auto.
    assert (Hpush : forall y, y ∈ x :: cur -> y ∈ cur \/ y ∈ x :: t).
    { intros y Hy. apply elem_of_cons in Hy as [->|Hy]; [right; left|left; exact Hy]. }
    assert (Hnil : forall y : N, y ∈ [] -> y ∈ cur \/ y ∈ x :: t).
    { intros y Hy. inversion Hy. }
    destruct skip as [|k]; [|exact (Hstep _ _ _ Hp Hsame)].
    destruct (match_at r pv (x :: t)) as [m|]; [|exact (Hstep _ _ _ Hp Hpush)].
    destruct (length (x :: t) - length (rest m))%nat;
      [exact (Hstep _ _ _ Hp Hpush)|].
    apply elem_of_cons in Hp as [->|Hp]; [|exact (Hstep _ _ _ Hp Hnil)].
    left. apply elem_of_rev in Hc. exact Hc.
Qed.

Lemma split_chars r s piece c : piece ∈ Re.split r s -> c ∈ piece -> c ∈ s.
Proof.
  unfold Re.split. intros Hp Hc.
  destruct (split_from_chars _ _ _ _ _ _ _ Hp Hc) as [H|H]; [inversion H|exact H].
Qed.

End CaptureFacts.

Module SectionSpec.

Import PyStr Re ResumeParser ReFacts StripFacts FallbackSpec CaptureFacts.

Lemma lower_fixed (s : list N) :
  (forall c, c ∈ s -> lower_char c = c) -> lower s = s.
Proof.
  induction s as [|x t IH]; intros H; [reflexivity|].
  cbn. fold (lower t). rewrite (H x) by left. rewrite IH; [reflexivity|].
  intros c Hc. apply H. right. exact Hc.
Qed.

Lemma lower_chars (s : list N) (c : N) : c ∈ lower s -> lower_char c = c.
Proof.
  unfold lower. intros H. apply list_elem_of_fmap in H as (x & -> & _).
  apply lower_char_idemp.
Qed.

Lemma strip_chars (s : list N) (c : N) : c ∈ strip s -> c ∈ s.
Proof.
  destruct (strip_split s) as (u & v & E & _). intros H.
  rewrite E. rewrite !elem_of_app. auto.
Qed.

(** The entries cut out of a section of the lower-cased text. *)
Lemma section_entries (text section : list N) (entry : list N) :
  (exists a b, lower text = a ++ section ++ b) ->
  entry ∈ map strip (Re.split blank_line_re section) ->
  strip entry = entry /\ lower entry = entry.
Proof.
  intros (a & b & E) Hin. apply list_elem_of_fmap in Hin as (piece & -> & Hp).
  split; [apply strip_idemp|]. apply lower_fixed. intros c Hc.
  apply strip_chars in Hc. apply (split_chars _ _ _ _ Hp) in Hc.
  apply (lower_chars text). rewrite E, !elem_of_app. auto.
Qed.

(** X16.  extract_experience returns at most five entries; the full_text of each
    has more than twenty characters, no white space at its ends and no
    upper-case letter (it is cut from the lower-cased text), and its
    description is the first 200 characters of the full_text. *)
Theorem experience_entries (text : list N) :
  (length (extract_experience text) <= 5)%nat
  /\ Forall (fun e =>
               (20 < length (full_text e))%nat
               /\ strip (full_text e) = full_text e
               /\ lower (full_text e) = full_text e
               /\ description e = take 200 (full_text e))
            (extract_experience text).
Proof.
  unfold extract_experience. split; [rewrite length_take; lia|].
  apply Forall_take.
  destruct (search exp_section_re (lower text)) as [m|] eqn:Hs; [|constructor].
  apply Forall_forall. intros e He.
  apply list_elem_of_fmap in He as (entry & -> & He). cbn [full_text description].
  apply list_elem_of_filter in He as [Hlen He].
  apply Is_true_true, Nat.ltb_lt in Hlen.
  destruct (section_entries text (group 2 m) entry) as [H1 H2];
    [apply (search_group_infix _ _ _ 2 Hs)|exact He|]. auto.
Qed.

(** X17.  extract_education returns at most three entries; the full_text of each
    has more than ten characters, no white space at its ends and no
    upper-case letter, and its description is the first 200 characters of
    the full_text. *)
Theorem education_entries (text : list N) :
  (length (extract_education text) <= 3)%nat
  /\ Forall (fun e =>
               (10 < length (full_text e))%nat
               /\ strip (full_text e) = full_text e
               /\ lower (full_text e) = full_text e
               /\ description e = take 200 (full_text e))
            (extract_education text).
Proof.
  unfold extract_education. split; [rewrite length_take; lia|].
  apply Forall_take.
  destruct (search edu_section_re (lower text)) as [m|] eqn:Hs; [|constructor].
  apply Forall_forall. intros e He.
  apply list_elem_of_fmap in He as (entry & -> & He). cbn [full_text description].
  apply list_elem_of_In, filter_In in He as [He Hd].
  apply list_elem_of_In in He.
  assert (Hlen : (10 < length entry)%nat).
  { unfold mentions_degree in Hd. apply existsb_exists in Hd as (p & _ & Hd).
    apply andb_prop in Hd as [_ Hd]. apply Nat.ltb_lt in Hd. exact Hd. }
  destruct (section_entries text (group 2 m) entry) as [H1 H2];
    [apply (search_group_infix _ _ _ 2 Hs)|exact He|]. auto.
Qed.

End SectionSpec.

(** ** Phone numbers *)

Module ContactSpec.

Import PyStr Re ResumeParser ReFacts StripFacts FallbackSpec CaptureFacts.
Import UploadSpec SectionSpec.
Local Open Scope re_scope.

(** A text listed by [findall_text] is a match of the pattern inside the
    scanned text. *)
Lemma findall_text_sound r s x :
  x ∈ findall_text r s ->
  exists pre post pv st',
    s = pre ++ x ++ post
    /\ matches r (MState pv (x ++ post) []) st' /\ rest st' = post.
Proof.
  unfold findall_text, findall. intros H.
  apply list_elem_of_fmap in H as (m & -> & Hm).
  apply findall_sound in Hm as (pre & post0 & -> & Hm).
  unfold match_at in Hm. apply rmatch_sound in Hm as (st' & Hm & E).
  injection E as <-.
  apply matches_group_inv in Hm as (st2 & Hm & ->).
  destruct (matches_rest _ _ _ Hm) as (u & Hu & _).
  rewrite group_head, (consumed_rest _ _ u Hu). cbn [rest] in Hu.
  exists pre, (rest st2), (after None pre), st2. subst post0. auto.
Qed.

Lemma head_elem {A} (l : list A) (x : A) : head l = Some x -> x ∈ l.
Proof. destruct l; [discriminate|]. intros [= ->]. left. Qed.










End ContactSpec.

(** ** Email addresses and profile links *)

Module AddressSpec.

Import PyStr Re ResumeParser ReFacts StripFacts FallbackSpec CaptureFacts.
Import UploadSpec SectionSpec ContactSpec.
Local Open Scope re_scope.

(** X11.  An extracted email address is a piece of the text of the form
    local@domain.tld with a non-empty local part over [A-Za-z0-9._%+-], a
    non-empty domain over [A-Za-z0-9.-] and at least two final characters
    that are letters or, as the class is written, vertical bars. *)
Theorem email_shape (text e : list N) :
  contact_email (extract_contact_info text) = Some e ->
  exists local domain tld,
    e = local ++ lit "@" ++ domain ++ lit "." ++ tld
    /\ local <> [] /\ forallb email_local local = true
    /\ domain <> [] /\ forallb email_domain domain = true
    /\ (2 <= length tld)%nat /\ forallb email_tld tld = true
    /\ exists pre post, text = pre ++ e ++ post.
Proof.
  cbn [extract_contact_info contact_email]. intros H.
  apply head_elem, findall_text_sound in H
    as (pre & post & pv & st' & E & Hm & Hr).
  unfold email_re in Hm.
  apply matches_seq_inv in Hm as (s1 & H1 & Hm).
  apply matches_seq_inv in Hm as (s2 & H2 & Hm).
  apply matches_seq_inv in Hm as (s3 & H3 & Hm).
  apply matches_seq_inv in Hm as (s4 & H4 & Hm).
  apply matches_seq_inv in Hm as (s5 & H5 & Hm).
  apply matches_seq_inv in Hm as (s6 & H6 & Hm).
  apply matches_seq_inv in Hm as (s7 & H7 & Hm).
  apply matches_seq_inv in Hm as (s8 & H8 & H9).
  apply matches_wordb_inv in H1 as [-> _].
  apply matches_plus_inv in H2 as (u1 & N1 & R2 & F1 & _).
  apply matches_chr_inv in H3 as (c3 & C3 & R3 & _).
  apply matches_plus_inv in H4 as (u2 & N2 & R4 & F2 & _).
  apply matches_chr_inv in H5 as (c5 & C5 & R5 & _).
  apply matches_chr_inv in H6 as (c6 & C6 & R6 & _).
  apply matches_chr_inv in H7 as (c7 & C7 & R7 & _).
  apply matches_star_inv in H8 as (u3 & R8 & F3 & _).
  apply matches_wordb_inv in H9 as [-> _].
  apply N.eqb_eq in C3, C5. subst c3 c5.
  cbn [rest] in R2. rewrite R3, R4, R5, R6, R7, R8, Hr in R2.
  assert (Ee : e = u1 ++ lit "@" ++ u2 ++ lit "." ++ (c6 :: c7 :: u3)).
  { apply (app_inv_tail post). rewrite R2.
    change (lit "@") with [64%N]. change (lit ".") with [46%N].
    rewrite <- !app_assoc. reflexivity. }
  exists u1, u2, (c6 :: c7 :: u3). split; [exact Ee|].
  repeat (split; [assumption|]). split; [cbn; lia|]. split.
  - cbn [forallb]. rewrite C6, C7, F3. reflexivity.
  - exists pre, post. exact E.
Qed.

Lemma email_shape_witness :
  exists local domain tld,
    lit "john.doe@example.com" = local ++ lit "@" ++ domain ++ lit "." ++ tld
    /\ local <> [] /\ forallb email_local local = true
    /\ domain <> [] /\ forallb email_domain domain = true
    /\ (2 <= length tld)%nat /\ forallb email_tld tld = true
    /\ exists pre post,
         lit "Mail: john.doe@example.com." = pre ++ lit "john.doe@example.com" ++ post.
Proof.
  apply (email_shape (lit "Mail: john.doe@example.com.")).
  vm_compute. reflexivity.
Defined.




End AddressSpec.

(** ** The name heuristic *)

Module NameSpec.

Import PyStr Re ResumeParser ReFacts StripFacts FallbackSpec CaptureFacts.
Import UploadSpec SectionSpec ContactSpec ParserSpec.
Local Open Scope re_scope.

Lemma split_pieces_no_sep (sep : N) (s piece : list N) :
  piece ∈ PyStr.split sep s -> sep ∉ piece.
Proof.
  revert piece. induction s as [|c t IH]; intros piece H; cbn [PyStr.split] in H.
  - apply list_elem_of_singleton in H. subst piece. intros Hin. inversion Hin.
  - destruct (N.eqb_spec c sep) as [->|Hne].
    + apply elem_of_cons in H as [->|H]; [intros Hin; inversion Hin|auto].
    + destruct (PyStr.split sep t) as [|h r].
      * apply list_elem_of_singleton in H. subst piece. intros Hin.
        apply list_elem_of_singleton in Hin. congruence.
      * apply elem_of_cons in H as [->|H].
        -- intros Hin. apply elem_of_cons in Hin as [E|Hin]; [congruence|].
           apply (IH h); [left|exact Hin].
        -- apply IH. right. exact H.
Qed.



Lemma name_of_lines_spec (lines : list (list N)) (n : list N) :
  name_of_lines lines = Some n ->
  exists l, l ∈ lines /\ n = strip l /\ contains 64 n = false
            /\ search phone_like_re n = None /\ looks_like_name n = true.
Proof.
  induction lines as [|l more IH]; [discriminate|]. cbn [name_of_lines].
  destruct (contains 64 (strip l)) eqn:Hat.
  { intros H. destruct (IH H) as (l' & Hin & R). exists l'. split; [right|]; auto. }
  destruct (search phone_like_re (strip l)) as [m|] eqn:Hp.
  { rewrite bool_decide_eq_true_2 by eauto. cbn [orb].
    intros H. destruct (IH H) as (l' & Hin & R). exists l'. split; [right|]; auto. }
  rewrite bool_decide_eq_false_2 by (intros [x Hx]; discriminate). cbn [orb].
  destruct (looks_like_name (strip l)) eqn:Hn.
  - intros [= <-]. exists l. split; [left|]. auto.
  - intros H. destruct (IH H) as (l' & Hin & R). exists l'. split; [right|]; auto.
Qed.

Lemma contact_name_nonempty (text : list N) :
  contact_name (extract_contact_info text) <> [].
Proof.
  cbn [extract_contact_info contact_name].
  destruct (name_of_lines (take 5 (PyStr.split 10 (strip text)))) as [n|] eqn:Hn;
    cbn [default from_option id]; [|discriminate].
  apply name_of_lines_spec in Hn as (l & _ & -> & _ & _ & Hl).
  intros E. rewrite E in Hl. discriminate.
Qed.


End NameSpec.

(** ** A name on the first line *)

Module FirstLineSpec.

Import PyStr Re ResumeParser ReFacts StripFacts FallbackSpec CaptureFacts.
Import UploadSpec SectionSpec ContactSpec ParserSpec NameSpec.
Local Open Scope re_scope.






End FirstLineSpec.

(** ** Reported skills and the vocabulary *)

Module VocabularySpec.

Import PyStr Re LLMMatcher ResumeParser ReFacts SortFacts StripFacts FallbackSpec.
Import ResumeSpec UploadSpec SectionSpec.
Local Open Scope re_scope.

Lemma extract_skills_perm (text : list N) :
  Permutation (extract_skills text)
    (elements (list_to_set
       (map title
          (filter (fun skill =>
                     bool_decide (is_Some (search (skill_re skill) (lower text))))
                  common_skills)) : gset (list N))).
Proof. unfold extract_skills. apply sorted_perm. Qed.

Lemma extract_skills_elem (text x : list N) :
  x ∈ extract_skills text <->
  exists term, term ∈ common_skills
               /\ occurs_bounded term (lower text) /\ x = title term.
Proof.
  rewrite (extract_skills_perm text), elem_of_elements, elem_of_list_to_set.
  rewrite list_elem_of_fmap.
  pose proof vocabulary_lower as Hv. rewrite Forall_forall in Hv.
  split.
  - intros (term & -> & Hin). apply list_elem_of_filter in Hin as [Hs Hin].
    exists term. split; [assumption|]. split; [|reflexivity].
    apply bool_decide_unpack in Hs. unfold skill_re in Hs.
    apply skill_search_iff in Hs. rewrite (Hv term) in Hs; assumption.
  - intros (term & Hin & Hocc & ->). exists term. split; [reflexivity|].
    apply list_elem_of_filter. split; [|assumption].
    apply bool_decide_pack. unfold skill_re. apply skill_search_iff.
    rewrite (Hv term); assumption.
Qed.

Lemma extract_skills_NoDup (text : list N) : NoDup (extract_skills text).
Proof. rewrite (extract_skills_perm text). apply NoDup_elements. Qed.









End VocabularySpec.

(** ** Reading the file, the parsed resume *)

Module FileSpec.

Import PyStr Re LLMMatcher ResumeParser App ReFacts SortFacts StripFacts FallbackSpec.
Import ResumeSpec UploadSpec SectionSpec NameSpec VocabularySpec.

Lemma pypdf2_loop_acc (pages : list page_outcome) : forall text,
  pypdf2_loop pages text = option_map (app text) (pypdf2_loop pages []).
Proof.
  induction pages as [|[|[t|]] more IH]; intros text; cbn [pypdf2_loop].
  - cbn. rewrite app_nil_r. reflexivity.
  - reflexivity.
  - rewrite IH, (IH ([] ++ t ++ [10%N])).
    destruct (pypdf2_loop more []) as [r|]; [|reflexivity].
    cbn. rewrite <- !app_assoc. reflexivity.
  - reflexivity.
Qed.

Lemma pdfplumber_loop_raises (before after : list page_outcome) : forall text,
  PageRaises ∉ before ->
  pdfplumber_loop (before ++ PageRaises :: after) text
  = (fst (pdfplumber_loop before text), true).
Proof.
  induction before as [|[|[[|c t]|]] more IH]; intros text Hn; cbn [app pdfplumber_loop].
  - reflexivity.
  - exfalso. apply Hn. left.
  - apply IH. intros H. apply Hn. right. exact H.
  - apply IH. intros H. apply Hn. right. exact H.
  - apply IH. intros H. apply Hn. right. exact H.
Qed.

Lemma pdfplumber_loop_reads (pages : list page_outcome) : forall text,
  PageRaises ∉ pages -> snd (pdfplumber_loop pages text) = false.
Proof.
  induction pages as [|[|[[|c t]|]] more IH]; intros text Hn; cbn [pdfplumber_loop].
  - reflexivity.
  - exfalso. apply Hn. left.
  - apply IH. intros H. apply Hn. right. exact H.
  - apply IH. intros H. apply Hn. right. exact H.
  - apply IH. intros H. apply Hn. right. exact H.
Qed.

(** X20.  When pdfplumber raises part of the way through a PDF and PyPDF2 reads the
    file, extract_text_from_pdf returns the text pdfplumber had collected
    before the failing page followed by the complete PyPDF2 text, so the
    pages read before the failure appear twice. *)
Theorem pdf_fallback_keeps_partial_text (io : file_readers) (path : list N)
    (before after pages2 : list page_outcome) (text2 : list N) :
  pdfplumber_pages io path = Some (before ++ PageRaises :: after) ->
  PageRaises ∉ before ->
  pypdf2_pages io path = Some pages2 ->
  pypdf2_loop pages2 [] = Some text2 ->
  extract_text_from_pdf io path
  = Returned (fst (pdfplumber_loop before []) ++ text2).
Proof.
  intros H1 Hn H2 H3. unfold extract_text_from_pdf.
  rewrite H1, (pdfplumber_loop_raises before after [] Hn), H2.
  rewrite pypdf2_loop_acc, H3. reflexivity.
Qed.

Lemma pdf_fallback_keeps_partial_text_witness :
  extract_text_from_pdf
    {| pdfplumber_pages := fun _ =>
         Some [PageReturns (Some (lit "page one")); PageRaises;
               PageReturns (Some (lit "page three"))];
       pypdf2_pages := fun _ =>
         Some [PageReturns (Some (lit "page one")); PageReturns (Some (lit "page two"))];
       docx_paragraphs := fun _ => None |}
    (lit "cv.pdf")
  = Returned (lit "page one" ++ [10%N] ++ lit "page one" ++ [10%N]
                ++ lit "page two" ++ [10%N]).
Proof.
  apply (pdf_fallback_keeps_partial_text _ _ [PageReturns (Some (lit "page one"))]
           [PageReturns (Some (lit "page three"))]
           [PageReturns (Some (lit "page one")); PageReturns (Some (lit "page two"))]).
  - reflexivity.
  - intros H. apply list_elem_of_singleton in H. discriminate.
  - reflexivity.
  - reflexivity.
Defined.

Lemma calculate_experience_years_nonempty (text : list N) :
  calculate_experience_years text <> [].
Proof.
  unfold calculate_experience_years.
  destruct (findall years_re (lower text)) as [|m l].
  - destruct (Nat.ltb 0 (length (extract_experience text))); discriminate.
  - intros H. apply app_eq_nil in H as [_ H]. discriminate.
Qed.

Lemma extract_skills_length (text : list N) :
  (length (extract_skills text) <= length common_skills)%nat.
Proof.
  rewrite <- (length_map title common_skills).
  apply NoDup_incl_length.
  - apply NoDup_ListNoDup, extract_skills_NoDup.
  - intros x Hx. apply list_elem_of_In, extract_skills_elem in Hx
      as (term & Hin & _ & ->).
    apply in_map, list_elem_of_In. exact Hin.
Qed.

(** X21.  When parse_resume returns, the path passes allowed_file and is recorded
    unchanged, the three counts of parsed_data are the lengths of the
    skills, experience and education lists, which hold at most 79, 5 and 3
    entries, and neither candidate_name nor experience_years is empty. *)
Theorem parsed_resume_invariants (io : file_readers) (path : list N)
    (parsed : parsed_resume) :
  parse_resume io path = Returned parsed ->
  allowed_file path = true
  /\ file_path parsed = path
  /\ total_skills (parsed_data parsed) = length (skills parsed)
  /\ total_experiences (parsed_data parsed) = length (experience parsed)
  /\ total_education (parsed_data parsed) = length (education parsed)
  /\ (length (skills parsed) <= 79)%nat
  /\ (length (experience parsed) <= 5)%nat
  /\ (length (education parsed) <= 3)%nat
  /\ candidate_name parsed <> [] /\ experience_years parsed <> [].
Proof.
  intros H.
  assert (Ha : allowed_file path = true).
  { apply allowed_file_suffix. unfold parse_resume in H.
    destruct (endswith (lower path) (lit ".pdf")); [auto|].
    destruct (endswith (lower path) (lit ".docx")); [auto|discriminate]. }
  split; [exact Ha|]. unfold parse_resume in H.
  destruct (if endswith (lower path) (lit ".pdf") then _ else _) as [text|e];
    [|discriminate].
  injection H as <-. cbn.
  repeat (split; [reflexivity|]).
  split; [apply (extract_skills_length text)|].
  split; [unfold extract_experience; rewrite length_take; lia|].
  split; [unfold extract_education; rewrite length_take; lia|].
  split; [|apply calculate_experience_years_nonempty].
  apply (contact_name_nonempty text).
Qed.

Lemma parsed_resume_invariants_witness :
  exists parsed,
    parse_resume (readers_of_pages [lit "Jane Roe"; lit "Skills: Python, SQL"])
                 (lit "uploads/cv.DOCX") = Returned parsed
    /\ total_skills (parsed_data parsed) = length (skills parsed)
    /\ candidate_name parsed <> [].
Proof.
  destruct (parse_resume (readers_of_pages [lit "Jane Roe"; lit "Skills: Python, SQL"])
                         (lit "uploads/cv.DOCX")) as [parsed|e] eqn:E.
  - exists parsed. split; [reflexivity|].
    destruct (parsed_resume_invariants _ _ _ E)
      as (_ & _ & H1 & _ & _ & _ & _ & _ & H2 & _).
    auto.
  - vm_compute in E. discriminate.
Defined.

End FileSpec.

(** ** What the model is shown *)

Module PromptSpec.

Import PyStr Re LLMMatcher ResumeParser App ReFacts SortFacts StripFacts FallbackSpec.
Import ResumeSpec UploadSpec SectionSpec NameSpec VocabularySpec FileSpec.
Import ContactSpec AddressSpec.

Lemma prompt_reads (r1 r2 : resume_data) (job : job_data) :
  default (lit "Unknown") (resume_candidate_name r1)
    = default (lit "Unknown") (resume_candidate_name r2) ->
  take 20 (default [] (resume_skills r1)) = take 20 (default [] (resume_skills r2)) ->
  default (lit "Not specified") (resume_experience_years r1)
    = default (lit "Not specified") (resume_experience_years r2) ->
  build_matching_prompt r1 job = build_matching_prompt r2 job.
Proof.
  intros Hn Hs He. unfold build_matching_prompt. rewrite Hn, He.
  destruct (default [] (resume_skills r1)) as [|a l1];
    destruct (default [] (resume_skills r2)) as [|b l2];
    try discriminate; [reflexivity|].
  rewrite Hs. reflexivity.
Qed.

(** X10.  The prompt shows the model only the candidate's name, the first twenty
    skills and the experience text of a resume: when the model answers with
    a non-empty reply, two resumes that agree on these three get the same
    match result for the same job, whatever their remaining skills, id or
    email. *)
Theorem model_reads_truncated_resume (generate : list N -> option (list N))
    (r1 r2 : resume_data) (job : job_data) (reply : list N) :
  default (lit "Unknown") (resume_candidate_name r1)
    = default (lit "Unknown") (resume_candidate_name r2) ->
  take 20 (default [] (resume_skills r1)) = take 20 (default [] (resume_skills r2)) ->
  default (lit "Not specified") (resume_experience_years r1)
    = default (lit "Not specified") (resume_experience_years r2) ->
  generate (build_matching_prompt r1 job) = Some reply -> reply <> [] ->
  match_with_prompt generate r2 job = match_with_prompt generate r1 job.
Proof.
  intros Hn Hs He Hg Hr. unfold match_with_prompt, match_resume_to_job.
  rewrite <- (prompt_reads r1 r2 job Hn Hs He), Hg.
  destruct reply as [|c reply]; [congruence|]. reflexivity.
Qed.

Lemma model_reads_truncated_resume_witness :
  match_with_prompt (fun _ => Some (lit "MATCH SCORE: 7"))
    {| resume_id := Some 2; resume_candidate_name := Some (lit "John Doe");
       resume_email := Some (lit "john@example.com");
       resume_skills := Some (repeat (lit "Python") 20 ++ [lit "Rust"]);
       resume_experience_years := Some (lit "3 years") |}
    backend_job
  = match_with_prompt (fun _ => Some (lit "MATCH SCORE: 7"))
    {| resume_id := Some 1; resume_candidate_name := Some (lit "John Doe");
       resume_email := None;
       resume_skills := Some (repeat (lit "Python") 20 ++ [lit "Flask"; lit "AWS"]);
       resume_experience_years := Some (lit "3 years") |}
    backend_job.
Proof.
  apply (model_reads_truncated_resume _ _ _ _ (lit "MATCH SCORE: 7"));
    try reflexivity.
  discriminate.
Defined.

End PromptSpec.

(** ** Exact results of the matcher, absence of a heading *)

Module MatchExact.

Import PyStr Re ReFacts LLMMatcher ParserSpec.
Local Open Scope re_scope.











End MatchExact.

Module OccursFacts.

Import PyStr Re ReFacts LLMMatcher ParserSpec FallbackSpec MatchExact.













End OccursFacts.

(** ** Lines, labelled sections and bulleted lists *)

Module FormatFacts.

Import PyStr Re ReFacts LLMMatcher ParserSpec FallbackSpec StripFacts.
Import MatchExact OccursFacts.
Local Open Scope re_scope.




Lemma not_at_end pv (c d : N) (s : list N) cs :
  at_end (MState pv (c :: d :: s) cs) = false.
Proof. reflexivity. Qed.











End FormatFacts.

(** ** The score line *)

Module ReplyBlocks.

Import PyStr Re ReFacts LLMMatcher ParserSpec FallbackSpec StripFacts.
Import MatchExact OccursFacts FormatFacts.
Local Open Scope re_scope.





End ReplyBlocks.

(** ** The searches of the reply parser *)

Module ReplySearch.

Import PyStr Re ReFacts LLMMatcher ParserSpec FallbackSpec StripFacts.
Import MatchExact OccursFacts FormatFacts ReplyBlocks.
Local Open Scope re_scope.














End ReplySearch.

(** ** Reading back a formatted reply *)

Module RoundTrip.

Import Float PyStr FloatText Re ReFacts LLMMatcher ParserSpec FallbackSpec StripFacts.
Import FirstLineSpec MatchExact OccursFacts FormatFacts ReplyBlocks ReplySearch.
Local Open Scope re_scope.










End RoundTrip.

(** ** The summary line *)

Module SummarySpec.

Import PyStr Re ResumeParser ReFacts StripFacts FallbackSpec CaptureFacts.
Import UploadSpec SectionSpec ContactSpec NameSpec VocabularySpec FileSpec.
Local Open Scope re_scope.

Lemma join_parts (sep a z : list N) (l : list (list N)) :
  join sep (a :: l ++ [z]) = a ++ concat (map (app sep) l) ++ sep ++ z.
Proof.
  revert a. induction l as [|b l IH]; intros a; [reflexivity|].
  change (join sep (a :: (b :: l) ++ [z])) with (a ++ sep ++ join sep (b :: l ++ [z])).
  rewrite IH. cbn [map concat]. rewrite <- !app_assoc. reflexivity.
Qed.

Lemma join_one_line (sep : list N) (l : list (list N)) :
  10%N ∉ sep -> Forall (fun x => 10%N ∉ x) l -> 10%N ∉ join sep l.
Proof.
  intros Hsep Hl. induction Hl as [|x l Hx Hl IH]; [intros H; inversion H|].
  destruct l as [|y l]; [exact Hx|].
  change (join sep (x :: y :: l)) with (x ++ sep ++ join sep (y :: l)).
  rewrite !elem_of_app. tauto.
Qed.

Lemma digits_one_line (u : Decimal.uint) : 10%N ∉ digits_of_uint u.
Proof.
  induction u; cbn [digits_of_uint]; intros H;
    try (inversion H; fail);
    apply elem_of_cons in H as [H|H]; try discriminate; auto.
Qed.

Lemma one_line_lit_app (a b : list N) :
  forallb dot a = true -> 10%N ∉ b -> 10%N ∉ a ++ b.
Proof.
  intros Ha Hb H. apply elem_of_app in H as [H|H]; [|auto].
  rewrite forallb_forall in Ha. apply list_elem_of_In, Ha in H. discriminate.
Qed.

Lemma experience_years_one_line (text : list N) :
  10%N ∉ calculate_experience_years text.
Proof.
  unfold calculate_experience_years.
  destruct (findall years_re (lower text)) as [|m l].
  - destruct (Nat.ltb 0 (length (extract_experience text))).
    + apply one_line_lit_app; [reflexivity|]. intros H.
      apply elem_of_app in H as [H|H]; [apply (digits_one_line _ H)|].
      vm_compute in H. repeat (apply elem_of_cons in H as [H|H]; [discriminate|]).
      inversion H.
    + intros H. vm_compute in H.
      repeat (apply elem_of_cons in H as [H|H]; [discriminate|]). inversion H.
  - intros H. apply elem_of_app in H as [H|H]; [apply (digits_one_line _ H)|].
    vm_compute in H. repeat (apply elem_of_cons in H as [H|H]; [discriminate|]).
    inversion H.
Qed.

Lemma vocabulary_one_line :
  forallb (fun term => forallb dot (title term)) common_skills = true.
Proof. vm_compute. reflexivity. Qed.

Lemma skills_one_line (text : list N) :
  Forall (fun x => 10%N ∉ x) (extract_skills text).
Proof.
  apply Forall_forall. intros x Hx.
  apply extract_skills_elem in Hx as (term & Hin & _ & ->).
  pose proof vocabulary_one_line as H. rewrite forallb_forall in H.
  apply list_elem_of_In, H in Hin. rewrite forallb_forall in Hin.
  intros Hn. apply list_elem_of_In, Hin in Hn. discriminate.
Qed.

Lemma email_one_line (text e : list N) :
  contact_email (extract_contact_info text) = Some e -> 10%N ∉ e.
Proof.
  cbn [extract_contact_info contact_email]. intros H.
  apply head_elem, findall_text_sound in H
    as (pre & post & pv & st' & E & Hm & Hr).
  assert (HR : reads_only dot email_re).
  { assert (Hq : forall p : N -> bool, p 10%N = false ->
                   forall c, p c = true -> dot c = true).
    { intros p Hp c Hc. unfold dot. apply negb_true_iff, N.eqb_neq.
      intros ->. congruence. }
    unfold email_re. cbn [reads_only Plus].
    repeat split; apply Hq; reflexivity. }
  destruct (matches_reads_only _ _ _ _ HR Hm) as (u & Hu & Hq).
  cbn [rest] in Hu. rewrite Hr in Hu. apply app_inv_tail in Hu. subst u.
  intros Hin. rewrite forallb_forall in Hq.
  apply list_elem_of_In, Hq in Hin. discriminate.
Qed.

Lemma contact_name_one_line (text : list N) :
  10%N ∉ contact_name (extract_contact_info text).
Proof.
  cbn [extract_contact_info contact_name].
  destruct (name_of_lines (take 5 (PyStr.split 10 (strip text)))) as [n|] eqn:Hn;
    cbn [default from_option id].
  - apply name_of_lines_spec in Hn as (l & Hin & -> & _).
    intros Hc. apply strip_chars in Hc. apply subseteq_take in Hin.
    apply (split_pieces_no_sep 10 _ _ Hin). exact Hc.
  - intros H. vm_compute in H.
    repeat (apply elem_of_cons in H as [H|H]; [discriminate|]). inversion H.
Qed.

Lemma parsed_fields (io : file_readers) (path : list N) (parsed : parsed_resume) :
  parse_resume io path = Returned parsed ->
  exists text,
    candidate_name parsed = contact_name (extract_contact_info text)
    /\ email parsed = contact_email (extract_contact_info text)
    /\ skills parsed = extract_skills text
    /\ experience_years parsed = calculate_experience_years text.
Proof.
  intros H. unfold parse_resume in H.
  destruct (if endswith (lower path) (lit ".pdf") then _ else _) as [text|e];
    [|discriminate].
  injection H as <-. exists text. repeat split; reflexivity.
Qed.

Lemma summary_parts (parsed : parsed_resume) :
  experience_years parsed <> [] ->
  exists optional,
    get_resume_summary parsed
    = join (lit " | ")
        ((lit "Candidate: " ++ candidate_name parsed)
           :: optional ++ [lit "Experience: " ++ experience_years parsed])
    /\ ((forall e, email parsed = Some e -> 10%N ∉ e) ->
        Forall (fun x => 10%N ∉ x) (skills parsed) ->
        Forall (fun x => 10%N ∉ x) optional).
Proof.
  intros Hy. unfold get_resume_summary.
  destruct (experience_years parsed) as [|y ys] eqn:Ey; [congruence|].
  exists (match email parsed with
          | Some (c :: e) => [lit "Email: " ++ c :: e]
          | _ => []
          end
          ++ match skills parsed with
             | _ :: _ => [lit "Skills: " ++ join (lit ", ") (take 10 (skills parsed))]
             | [] => []
             end).
  split.
  - cbn [app]. rewrite <- app_assoc. reflexivity.
  - intros He Hs. apply Forall_app. split.
    + destruct (email parsed) as [[|c e]|]; try constructor; [|constructor].
      apply one_line_lit_app; [reflexivity|apply He; reflexivity].
    + destruct (skills parsed) as [|s0 ss] eqn:Es; constructor; [|constructor].
      apply one_line_lit_app; [reflexivity|].
      apply join_one_line.
      * intros H. vm_compute in H.
        repeat (apply elem_of_cons in H as [H|H]; [discriminate|]). inversion H.
      * apply Forall_take. exact Hs.
Qed.

(** X25.  The summary of a resume that parse_resume returned is a single line: it
    starts with "Candidate: " and the extracted name, always ends with
    " | Experience: " and the experience estimate (which is never empty),
    and contains no line break, since neither the name, the email address,
    the reported skills nor the estimate contains one. *)
Theorem summary_of_parsed_resume (io : file_readers) (path : list N)
    (parsed : parsed_resume) :
  parse_resume io path = Returned parsed ->
  10%N ∉ get_resume_summary parsed
  /\ exists middle,
       get_resume_summary parsed
       = lit "Candidate: " ++ candidate_name parsed ++ middle
           ++ lit " | Experience: " ++ experience_years parsed.
Proof.
  intros H. destruct (parsed_fields io path parsed H) as (text & En & Ee & Es & Ey).
  assert (Hy : experience_years parsed <> [])
    by (rewrite Ey; apply calculate_experience_years_nonempty).
  destruct (summary_parts parsed Hy) as (optional & -> & Hopt).
  split.
  - apply join_one_line.
    + intros Hs. vm_compute in Hs.
      repeat (apply elem_of_cons in Hs as [Hs|Hs]; [discriminate|]). inversion Hs.
    + apply List.Forall_cons; [|apply Forall_app; split].
      * apply one_line_lit_app; [reflexivity|].
        rewrite En. apply contact_name_one_line.
      * apply Hopt.
        -- intros e He. rewrite Ee in He. apply (email_one_line text e He).
        -- rewrite Es. apply skills_one_line.
      * constructor; [|constructor].
        apply one_line_lit_app; [reflexivity|].
        rewrite Ey. apply experience_years_one_line.
  - rewrite (join_parts (lit " | ")).
    exists (concat (map (app (lit " | ")) optional)).
    rewrite <- !app_assoc. reflexivity.
Qed.

Lemma summary_of_parsed_resume_witness :
  exists parsed,
    parse_resume (readers_of_pages [lit "Jane Roe"; lit "jane@roe.org - Python, SQL"])
                 (lit "cv.pdf") = Returned parsed
    /\ get_resume_summary parsed
       = lit "Candidate: Jane Roe | Email: jane@roe.org | Skills: Python, Sql | Experience: Not specified"
    /\ 10%N ∉ get_resume_summary parsed.
Proof.
  destruct (parse_resume (readers_of_pages [lit "Jane Roe"; lit "jane@roe.org - Python, SQL"])
                         (lit "cv.pdf")) as [parsed|e] eqn:E.
  - exists parsed. split; [reflexivity|]. split.
    + vm_compute in E. injection E as <-. vm_compute. reflexivity.
    + apply (summary_of_parsed_resume _ _ _ E).
  - vm_compute in E. discriminate.
Defined.

End SummarySpec.

(** ** Sections and their headings *)

Module HeadingSpec.

Import PyStr Re LLMMatcher ResumeParser ReFacts StripFacts ParserSpec.
Local Open Scope re_scope.

(** A pattern that starts with a group of alternative words only matches
    where one of the words stands. *)
Lemma search_word_group (ws : regex) (r : regex) (words : list (list N))
    (s : list N) (m : mstate) :
  (forall st st', matches ws st st' ->
     exists w, w ∈ words /\ exists t, rest st = w ++ t) ->
  search (Group 1 ws +> r) s = Some m ->
  exists w pre post, w ∈ words /\ s = pre ++ w ++ post.
Proof.
  intros Hws H. unfold search in H.
  apply search_from_sound in H as (pre & post & -> & H).
  unfold match_at in H. rewrite rmatch_seq in H.
  apply rmatch_sound in H as (st' & Hm & _).
  apply matches_group_inv in Hm as (st2 & Hm & _).
  destruct (Hws _ _ Hm) as (w & Hw & t & Ht). cbn [rest] in Ht.
  exists w, pre, t. split; [exact Hw|]. rewrite Ht. reflexivity.
Qed.

Lemma word_alternative (w : list N) (st st' : mstate) (words : list (list N)) :
  w ∈ words -> matches (word w) st st' ->
  exists w', w' ∈ words /\ exists t, rest st = w' ++ t.
Proof.
  intros Hw Hm. apply matches_word_inv in Hm as (Hr & _).
  exists w. split; [exact Hw|]. exists (rest st'). exact Hr.
Qed.

(** X26.  Without a heading there is no section: extract_experience returns no
    entry for a text in which, letter case ignored, neither "experience" nor
    "employment" occurs, and extract_education returns none for a text in
    which none of "education", "academic" and "qualifications" occurs. *)
Theorem sections_need_their_heading (text : list N) :
  ((forall w pre post,
      w ∈ [lit "experience"; lit "employment"] -> lower text <> pre ++ w ++ post) ->
   extract_experience text = [])
  /\ ((forall w pre post,
         w ∈ [lit "education"; lit "academic"; lit "qualifications"] ->
         lower text <> pre ++ w ++ post) ->
      extract_education text = []).
Proof.
  split; intros Hno.
  - unfold extract_experience.
    destruct (search exp_section_re (lower text)) as [m|] eqn:Hs; [|reflexivity].
    exfalso. unfold exp_section_re in Hs.
    apply (search_word_group _ _
             [lit "work experience"; lit "experience"; lit "employment";
              lit "professional experience"]) in Hs.
    + destruct Hs as (w & pre & post & Hw & E).
      repeat (apply elem_of_cons in Hw as [->|Hw]).
      * apply (Hno (lit "experience") (pre ++ lit "work ") post); [left|].
        rewrite E. change (lit "work experience") with (lit "work " ++ lit "experience").
        rewrite <- !app_assoc. reflexivity.
      * apply (Hno (lit "experience") pre post); [left|exact E].
      * apply (Hno (lit "employment") pre post); [right; left|exact E].
      * apply (Hno (lit "experience") (pre ++ lit "professional ") post); [left|].
        rewrite E.
        change (lit "professional experience")
          with (lit "professional " ++ lit "experience").
        rewrite <- !app_assoc. reflexivity.
      * inversion Hw.
    + intros st st' Hm.
      apply matches_alt_inv in Hm as [Hm|Hm];
        [apply (word_alternative _ _ _ _ ltac:(left) Hm)|].
      apply matches_alt_inv in Hm as [Hm|Hm];
        [apply (word_alternative _ _ _ _ ltac:(right; left) Hm)|].
      apply matches_alt_inv in Hm as [Hm|Hm];
        [apply (word_alternative _ _ _ _ ltac:(right; right; left) Hm)|].
      apply (word_alternative _ _ _ _ ltac:(right; right; right; left) Hm).
  - unfold extract_education.
    destruct (search edu_section_re (lower text)) as [m|] eqn:Hs; [|reflexivity].
    exfalso. unfold edu_section_re in Hs.
    apply (search_word_group _ _
             [lit "education"; lit "academic"; lit "qualifications"]) in Hs.
    + destruct Hs as (w & pre & post & Hw & E). exact (Hno w pre post Hw E).
    + intros st st' Hm.
      apply matches_alt_inv in Hm as [Hm|Hm];
        [apply (word_alternative _ _ _ _ ltac:(left) Hm)|].
      apply matches_alt_inv in Hm as [Hm|Hm];
        [apply (word_alternative _ _ _ _ ltac:(right; left) Hm)|].
      apply (word_alternative _ _ _ _ ltac:(right; right; left) Hm).
Qed.

Lemma sections_need_their_heading_witness :
  extract_experience (lit "Jane Roe - Python, SQL. Worked at Acme, 2019-2024.") = [].
Proof.
  apply (proj1 (sections_need_their_heading _)).
  intros w pre post Hw E.
  assert (Ho : occurs_i w (lower (lit "Jane Roe - Python, SQL. Worked at Acme, 2019-2024.")))
    by (exists pre, w, post; auto).
  apply occurs_i_after_heading in Ho as [t Ht].
  repeat (apply elem_of_cons in Hw as [->|Hw]; [vm_compute in Ht; discriminate|]).
  inversion Hw.
Defined.

End HeadingSpec.
